(** * EtherCAT library code of linuxcnc-ethercat: [src/lcec_ethercat.c]

    A shallow embedding of the slave registry, the descriptor builder,
    the process image relay and the configuration channel, followed by
    the properties of each.

    Conventions of the embedding.
    - A C [int], [uint8_t], [uint16_t], [uint32_t] value is a [Z]; where the
      code narrows a value the wrap-around is written out.
    - A pointer into one of the flat tables of [lcec_syncs_t] is the slot
      number it points at; [NULL] is [None].
    - A [NULL]-terminated chain (the slaves of a master) is a [list].
    - Behaviour that C leaves undefined (a slot outside its table, a
      dereferenced [NULL], a copy outside the process image) is [None].
    - The calls into the EtherCAT master ([ecrt_*]) are the constructors of
      a command type; a piece of code that issues them is a tree of
      commands ([prog]), run against any transport. *)

From Stdlib Require Import ZArith List String Lia.
From coqutil Require Import Byte Z.bitblast.
From stdpp Require Import gmap strings list.

Local Open Scope Z_scope.

Abbreviation byte := Init.Byte.byte.

(** ** Data model

    The structures below are declared in headers ([lcec.h], [lcec_conf.h]
    and the header of the EtherCAT master) that are not part of the sources
    at hand; each is given with the fields the code of this file uses. *)

(** Modelled from the spec: [LCEC_CONF_FSOE_T], the geometry of a safety
    channel: the number of data channels and the payload length of each
    direction. *)
Record LCEC_CONF_FSOE_T := {
  slave_data_len : nat;
  master_data_len : nat;
  data_channels : nat;
}.

(** Modelled from the spec: [lcec_slave_modparam_t], one [<modParam>] of a
    slave, as [lcec_modparam_get] reads it.  The value is opaque to this
    file and kept as its storage bytes. *)
Record lcec_slave_modparam_t := {
  mp_id : Z;
  mp_value : list byte;
}.

(** Modelled from the spec: [struct lcec_slave], the fields this file
    reads.  The two safety channel offsets are pointers to an offset, and
    may be [NULL].  The back pointer [slave->master] is not a field: code
    that follows it takes the master as an argument of its own. *)
Record lcec_slave := {
  s_index : Z;
  s_name : string;
  s_config : Z;
  s_fsoeConf : option LCEC_CONF_FSOE_T;
  s_fsoe_slave_offset : option nat;
  s_fsoe_master_offset : option nat;
  s_modparams : option (list lcec_slave_modparam_t);
}.

(** Modelled from the spec: [struct lcec_master].  [first_slave] is the
    chain linked by [slave->next], in attachment order; [m_master] is the
    handle of the EtherCAT master; [process_data] is the shared process
    image. *)
Record lcec_master := {
  m_name : string;
  m_master : Z;
  process_data : list byte;
  first_slave : list lcec_slave;
}.

(** ** Slave registry *)

(** The loop of [lcec_slave_by_index]:
    [for (slave = ...; slave != NULL; slave = slave->next)]. *)
Fixpoint slave_scan (slave : list lcec_slave) (index : Z) : option lcec_slave :=
  match slave with
  | [] => None
  | s :: next => if decide (s_index s = index) then Some s else slave_scan next index
  end.

Definition lcec_slave_by_index (master : lcec_master) (index : Z) : option lcec_slave :=
  slave_scan (first_slave master) index.

(** ** Module parameters *)

(** The loop of [lcec_modparam_get]: [for (p = ...; p->id >= 0; p++)].
    The outer [None] is a read past the end of the array (no sentinel);
    [Some None] is [NULL]; [Some (Some v)] points at the value [v]. *)
Fixpoint modparam_scan (p : list lcec_slave_modparam_t) (id : Z) : option (option (list byte)) :=
  match p with
  | [] => None
  | e :: p' =>
      if decide (mp_id e >= 0)
      then if decide (mp_id e = id) then Some (Some (mp_value e)) else modparam_scan p' id
      else Some None
  end.

Definition lcec_modparam_get (slave : lcec_slave) (id : Z) : option (option (list byte)) :=
  match s_modparams slave with
  | None => Some None
  | Some p => modparam_scan p id
  end.

(** The specification's reading of the scan: the first element with the
    requested id. *)
Definition first_with_id (id : Z) (l : list lcec_slave_modparam_t) : option (list byte) :=
  mp_value <$> List.find (fun e => bool_decide (mp_id e = id)) l.

(** ** Descriptor builder *)

(** Modelled from the spec: [ec_direction_t] and [ec_watchdog_mode_t] of
    the EtherCAT master; the first constructor of each is the value an
    all-zero descriptor holds. *)
Inductive ec_direction_t := EC_DIR_INVALID | EC_DIR_OUTPUT | EC_DIR_INPUT.
Inductive ec_watchdog_mode_t := EC_WD_DEFAULT | EC_WD_ENABLE | EC_WD_DISABLE.

(** Modelled from the spec: a PDO entry is an object index, a sub-index
    and a bit length. *)
Record ec_pdo_entry_info_t := {
  pe_index : Z;
  pe_subindex : Z;
  pe_bit_length : Z;
}.

(** Modelled from the spec: a PDO is an object index and a run of entries,
    head pointer and length; [entries] points into the flat entry table. *)
Record ec_pdo_info_t := {
  pi_index : Z;
  n_entries : nat;
  entries : option nat;
}.

(** Modelled from the spec: a sync manager is an index, a direction, a
    watchdog mode and a run of PDOs; [pdos] points into the flat PDO table;
    [si_index] is a [uint8_t], [0xff] marking the end of a list. *)
Record ec_sync_info_t := {
  si_index : Z;
  si_dir : ec_direction_t;
  n_pdos : nat;
  pdos : option nat;
  si_watchdog_mode : ec_watchdog_mode_t;
}.

(** Modelled from the spec: [lcec_syncs_t] is declared in [lcec.h], which
    is not part of the sources at hand.  Three flat, pre-sized tables, a
    count and a "current" pointer for each; counts and run lengths are
    slot numbers and never exceed the size of their table. *)
Record lcec_syncs_t := {
  sync_count : nat;
  curr_sync : option nat;
  syncs : list ec_sync_info_t;
  pdo_info_count : nat;
  curr_pdo_info : option nat;
  pdo_infos : list ec_pdo_info_t;
  pdo_entry_count : nat;
  curr_pdo_entry : option nat;
  pdo_entries : list ec_pdo_entry_info_t;
}.

Definition zero_sync : ec_sync_info_t :=
  {| si_index := 0; si_dir := EC_DIR_INVALID; n_pdos := 0; pdos := None;
     si_watchdog_mode := EC_WD_DEFAULT |}.
Definition zero_pdo_info : ec_pdo_info_t :=
  {| pi_index := 0; n_entries := 0; entries := None |}.
Definition zero_pdo_entry : ec_pdo_entry_info_t :=
  {| pe_index := 0; pe_subindex := 0; pe_bit_length := 0 |}.

Section Capacity.

(** The table sizes of [lcec.h]. *)
Variables LCEC_MAX_SYNC_COUNT LCEC_MAX_PDO_INFO_COUNT LCEC_MAX_PDO_ENTRY_COUNT : nat.

(** Modelled from the spec: the sizes of the tables come from [lcec.h];
    the sync table has one slot more than its capacity, for the sentinel
    written one slot past the last valid entry.  [memset] to zero. *)
Definition lcec_syncs_init : lcec_syncs_t :=
  {| sync_count := 0; curr_sync := None;
     syncs := replicate (S LCEC_MAX_SYNC_COUNT) zero_sync;
     pdo_info_count := 0; curr_pdo_info := None;
     pdo_infos := replicate LCEC_MAX_PDO_INFO_COUNT zero_pdo_info;
     pdo_entry_count := 0; curr_pdo_entry := None;
     pdo_entries := replicate LCEC_MAX_PDO_ENTRY_COUNT zero_pdo_entry |}.

End Capacity.

Definition lcec_syncs_add_sync (s : lcec_syncs_t)
    (dir : ec_direction_t) (watchdog_mode : ec_watchdog_mode_t) : option lcec_syncs_t :=
  let c := sync_count s in
  d ← syncs s !! c;
  let tab :=
    <[c := {| si_index := Z.of_nat c mod 256; si_dir := dir;
              n_pdos := n_pdos d; pdos := pdos d;
              si_watchdog_mode := watchdog_mode |}]> (syncs s) in
  t ← tab !! S c;
  Some {| sync_count := S c; curr_sync := Some c;
          syncs := <[S c := {| si_index := 255; si_dir := si_dir t;
                               n_pdos := n_pdos t; pdos := pdos t;
                               si_watchdog_mode := si_watchdog_mode t |}]> tab;
          pdo_info_count := pdo_info_count s; curr_pdo_info := curr_pdo_info s;
          pdo_infos := pdo_infos s;
          pdo_entry_count := pdo_entry_count s; curr_pdo_entry := curr_pdo_entry s;
          pdo_entries := pdo_entries s |}.

Definition lcec_syncs_add_pdo_info (s : lcec_syncs_t) (index : Z) : option lcec_syncs_t :=
  let k := pdo_info_count s in
  cs ← curr_sync s;
  d ← syncs s !! cs;
  p ← pdo_infos s !! k;
  Some {| sync_count := sync_count s; curr_sync := curr_sync s;
          syncs := <[cs := {| si_index := si_index d; si_dir := si_dir d;
                              n_pdos := S (n_pdos d);
                              pdos := match pdos d with None => Some k | Some h => Some h end;
                              si_watchdog_mode := si_watchdog_mode d |}]> (syncs s);
          pdo_info_count := S k; curr_pdo_info := Some k;
          pdo_infos := <[k := {| pi_index := index; n_entries := n_entries p;
                                 entries := entries p |}]> (pdo_infos s);
          pdo_entry_count := pdo_entry_count s; curr_pdo_entry := curr_pdo_entry s;
          pdo_entries := pdo_entries s |}.

Definition lcec_syncs_add_pdo_entry (s : lcec_syncs_t)
    (index subindex bit_length : Z) : option lcec_syncs_t :=
  let k := pdo_entry_count s in
  cp ← curr_pdo_info s;
  p ← pdo_infos s !! cp;
  _ ← pdo_entries s !! k;
  Some {| sync_count := sync_count s; curr_sync := curr_sync s; syncs := syncs s;
          pdo_info_count := pdo_info_count s; curr_pdo_info := curr_pdo_info s;
          pdo_infos := <[cp := {| pi_index := pi_index p;
                                  n_entries := S (n_entries p);
                                  entries := match entries p with
                                             | None => Some k
                                             | Some h => Some h
                                             end |}]> (pdo_infos s);
          pdo_entry_count := S k; curr_pdo_entry := Some k;
          pdo_entries := <[k := {| pe_index := index; pe_subindex := subindex;
                                   pe_bit_length := bit_length |}]> (pdo_entries s) |}.

(** A call of the device set-up code into the builder, and a sequence of
    them run from left to right. *)
Inductive builder_call :=
| AddSync (dir : ec_direction_t) (watchdog_mode : ec_watchdog_mode_t)
| AddPdo (index : Z)
| AddEntry (index subindex bit_length : Z).

Definition builder_step (s : lcec_syncs_t) (c : builder_call) : option lcec_syncs_t :=
  match c with
  | AddSync dir wd => lcec_syncs_add_sync s dir wd
  | AddPdo index => lcec_syncs_add_pdo_info s index
  | AddEntry index subindex bit_length => lcec_syncs_add_pdo_entry s index subindex bit_length
  end.

Fixpoint builder_run (s : lcec_syncs_t) (calls : list builder_call) : option lcec_syncs_t :=
  match calls with
  | [] => Some s
  | c :: rest => s' ← builder_step s c; builder_run s' rest
  end.

(** The run of a PDO: [n_entries] consecutive slots of the entry table
    from its head pointer. *)
Definition entry_run (s : lcec_syncs_t) (p : ec_pdo_info_t) : list ec_pdo_entry_info_t :=
  match entries p with
  | None => []
  | Some h => take (n_entries p) (drop h (pdo_entries s))
  end.

(** The sentinel-terminated view of the sync table: the number of
    descriptors met before the first one whose index is [0xff]. *)
Fixpoint sentinel_count (tab : list ec_sync_info_t) : option nat :=
  match tab with
  | [] => None
  | d :: tab' => if decide (si_index d = 255) then Some 0%nat else S <$> sentinel_count tab'
  end.

(** The specification's reading of a call sequence. *)

(** The nesting contract: a PDO is added after some sync manager, an entry
    after some PDO. *)
Fixpoint nested (have_sync have_pdo : bool) (calls : list builder_call) : bool :=
  match calls with
  | [] => true
  | AddSync _ _ :: rest => nested true have_pdo rest
  | AddPdo _ :: rest => have_sync && nested have_sync true rest
  | AddEntry _ _ _ :: rest => have_pdo && nested have_sync have_pdo rest
  end.

Definition is_add_sync (c : builder_call) : bool :=
  match c with AddSync _ _ => true | _ => false end.
Definition is_add_pdo (c : builder_call) : bool :=
  match c with AddPdo _ => true | _ => false end.
Definition is_add_entry (c : builder_call) : bool :=
  match c with AddEntry _ _ _ => true | _ => false end.

Definition count_calls (f : builder_call → bool) (calls : list builder_call) : nat :=
  length (List.filter f calls).

Definition entry_of_call (c : builder_call) : option ec_pdo_entry_info_t :=
  match c with
  | AddEntry index subindex bit_length =>
      Some {| pe_index := index; pe_subindex := subindex; pe_bit_length := bit_length |}
  | _ => None
  end.

(** The entries added from here to the next [AddPdo]. *)
Fixpoint entries_while_current (calls : list builder_call) : list ec_pdo_entry_info_t :=
  match calls with
  | [] => []
  | AddPdo _ :: _ => []
  | c :: rest =>
      match entry_of_call c with
      | Some e => e :: entries_while_current rest
      | None => entries_while_current rest
      end
  end.

(** The PDOs of a call sequence in the order they were added, each with
    its index and the entries added while it was the current one. *)
Fixpoint pdo_groups (calls : list builder_call) : list (Z * list ec_pdo_entry_info_t) :=
  match calls with
  | [] => []
  | AddPdo index :: rest => (index, entries_while_current rest) :: pdo_groups rest
  | _ :: rest => pdo_groups rest
  end.

(** Appending an entry to the last PDO of a list of groups. *)
Fixpoint snoc_entry (e : ec_pdo_entry_info_t) (gs : list (Z * list ec_pdo_entry_info_t))
    : list (Z * list ec_pdo_entry_info_t) :=
  match gs with
  | [] => []
  | [(i, es)] => [(i, es ++ [e])]
  | g :: gs' => g :: snoc_entry e gs'
  end.

(** What every descriptor set built by the three operations satisfies, as
    far as the sync table goes: the table keeps its size, the count stays
    within the capacity, and the descriptors in use carry their slot number
    as index. *)
Definition sync_inv (max_sync : nat) (s : lcec_syncs_t) : Prop :=
  length (syncs s) = S max_sync ∧
  (sync_count s ≤ max_sync)%nat ∧
  (∀ i, (i < sync_count s)%nat →
     ∃ d, syncs s !! i = Some d ∧ si_index d = Z.of_nat i mod 256) ∧
  ((0 < sync_count s)%nat →
     ∃ t, syncs s !! sync_count s = Some t ∧ si_index t = 255).

(** How the descriptor set reached by [calls] relates to the PDOs of
    [calls]: the counts, the "current" pointers, the used part of the entry
    table, the descriptor of each PDO, and the unused PDO slots. *)
Record builder_inv (max_sync max_pdo max_entry : nat)
    (calls : list builder_call) (s : lcec_syncs_t) : Prop := {
  inv_syncs_len : length (syncs s) = S max_sync;
  inv_pdos_len : length (pdo_infos s) = max_pdo;
  inv_entries_len : length (pdo_entries s) = max_entry;
  inv_sync_count : sync_count s = count_calls is_add_sync calls;
  inv_pdo_count : pdo_info_count s = length (pdo_groups calls);
  inv_entry_count : pdo_entry_count s = length (concat (snd <$> pdo_groups calls));
  inv_curr_sync :
    curr_sync s = match sync_count s with O => None | S n => Some n end;
  inv_curr_pdo :
    curr_pdo_info s = match pdo_info_count s with O => None | S n => Some n end;
  inv_table :
    take (pdo_entry_count s) (pdo_entries s) = concat (snd <$> pdo_groups calls);
  inv_groups : ∀ k i es,
    pdo_groups calls !! k = Some (i, es) →
    ∃ p, pdo_infos s !! k = Some p ∧ pi_index p = i ∧ n_entries p = length es ∧
         entries p = match es with
                     | [] => None
                     | _ => Some (length (concat (snd <$> take k (pdo_groups calls))))
                     end;
  inv_free : ∀ k,
    (pdo_info_count s ≤ k)%nat → (k < max_pdo)%nat →
    ∃ p, pdo_infos s !! k = Some p ∧ n_entries p = O ∧ entries p = None;
}.

(** ** Process image relay *)

(** [memcpy (pd + dst, pd + src, n)] inside the image [pd]: both ranges
    must lie inside the image and must not overlap. *)
Definition memcpy (pd : list byte) (dst src n : nat) : option (list byte) :=
  if decide (dst + n ≤ length pd ∧ src + n ≤ length pd ∧ (dst + n ≤ src ∨ src + n ≤ dst))%nat
  then Some (take dst pd ++ take n (drop src pd) ++ drop (dst + n) pd)
  else None.

(** The condition under which [memcpy] is defined: both ranges inside an
    image of [len] bytes, and apart. *)
Definition copy_ok (len dst src n : nat) : Prop :=
  (dst + n ≤ len ∧ src + n ≤ len ∧ (dst + n ≤ src ∨ src + n ≤ dst))%nat.

Section Relay.

(** The frame length macro of [lcec.h], from the channel count and the
    payload length of one direction. *)
Variable LCEC_FSOE_SIZE : nat → nat → nat.

(** The result is the process image of [master] after the call. *)
Definition copy_fsoe_data (master : lcec_master) (slave : lcec_slave)
    (slave_offset master_offset : nat) : option (list byte) :=
  let pd := process_data master in
  match s_fsoeConf slave with
  | None => Some pd
  | Some fsoeConf =>
      pd ← match s_fsoe_slave_offset slave with
           | Some off =>
               memcpy pd off slave_offset
                 (LCEC_FSOE_SIZE (data_channels fsoeConf) (slave_data_len fsoeConf))
           | None => Some pd
           end;
      match s_fsoe_master_offset slave with
      | Some off =>
          memcpy pd master_offset off
            (LCEC_FSOE_SIZE (data_channels fsoeConf) (master_data_len fsoeConf))
      | None => Some pd
      end
  end.

End Relay.

(** ** Configuration channel *)

(** What the EtherCAT master hands back: its return value and what it
    stored through the pointers it was given. *)
Record sdo_upload_result := {
  up_err : Z;
  up_target : list byte;
  up_result_size : N;
  up_abort_code : Z;
}.

Record sdo_download_result := {
  dl_err : Z;
  dl_abort_code : Z;
}.

Record read_idn_result := {
  idn_err : Z;
  idn_target : list byte;
  idn_result_size : N;
  idn_error_code : Z;
}.

(** The calls into the EtherCAT master, with the arguments as passed. *)
Inductive ecrt_call : Type → Type :=
| ecrt_master_sdo_upload (master slave_position index subindex : Z)
    (target : list byte) (target_size : N) : ecrt_call sdo_upload_result
| ecrt_master_sdo_download (master slave_position index subindex : Z)
    (data : list byte) (data_size : N) : ecrt_call sdo_download_result
| ecrt_slave_config_sdo (sc index subindex : Z)
    (data : list byte) (size : N) : ecrt_call Z
| ecrt_master_read_idn (master slave_position drive_no idn : Z)
    (target : list byte) (target_size : N) : ecrt_call read_idn_result.

(** The messages handed to [rtapi_print_msg], all at [RTAPI_MSG_ERR], by
    format and arguments. *)
Inductive diag :=
| SdoUploadFailed (master slave : string) (index subindex err abort_code : Z)
| SdoUploadSize (master slave : string) (index subindex : Z) (req res : N)
| SdoDownloadFailed (master slave : string) (index subindex : Z) (size : N)
    (byte0 : option byte) (err abort_code : Z)
| SlaveSdoConfigFailed (master slave : string) (index subindex : Z)
| ModparamSdoRejected (master slave mpname : string) (index subindex value : Z)
| IdnReadFailed (master slave : string) (drive_no idn err error_code : Z)
| IdnReadSize (master slave : string) (drive_no idn : Z) (req res : N).

(** Code that calls the EtherCAT master and prints. *)
Inductive prog (R : Type) : Type :=
| Ret (r : R)
| Call {X : Type} (c : ecrt_call X) (k : X → prog R)
| Print (m : diag) (k : prog R).
Arguments Ret {R} r.
Arguments Call {R X} c k.
Arguments Print {R} m k.

Fixpoint prog_bind {A B : Type} (f : A → prog B) (p : prog A) : prog B :=
  match p with
  | Ret r => f r
  | Call c k => Call c (fun x => prog_bind f (k x))
  | Print m k => Print m (prog_bind f k)
  end.

#[global] Instance prog_mret : MRet prog := @Ret.
#[global] Instance prog_mbind : MBind prog := @prog_bind.

Definition call {X : Type} (c : ecrt_call X) : prog X := Call c Ret.
Definition rtapi_print_msg (m : diag) : prog unit := Print m (Ret tt).

(** What running a [prog] leaves behind, in order. *)
Inductive event :=
| Called {X : Type} (c : ecrt_call X) (x : X)
| Printed (m : diag).

Record outcome (T R : Type) := {
  ret : R;
  transport : T;
  trace : list event;
}.
Arguments ret {T R} o.
Arguments transport {T R} o.
Arguments trace {T R} o.

(** A transport answers each call from its state. *)
Definition handler (T : Type) : Type := ∀ X : Type, ecrt_call X → T → X * T.

Fixpoint run {T R : Type} (h : handler T) (p : prog R) (t : T) : outcome T R :=
  match p with
  | Ret r => {| ret := r; transport := t; trace := [] |}
  | Call c k =>
      let '(x, t') := h _ c t in
      let o := run h (k x) t' in
      {| ret := ret o; transport := transport o; trace := Called c x :: trace o |}
  | Print m k =>
      let o := run h k t in
      {| ret := ret o; transport := transport o; trace := Printed m :: trace o |}
  end.

Definition is_config_sdo (e : event) : bool :=
  match e with
  | Called (ecrt_slave_config_sdo _ _ _ _ _) _ => true
  | _ => false
  end.

Definition is_called (e : event) : bool :=
  match e with
  | Called _ _ => true
  | Printed _ => false
  end.

(** [slave->index] is an [int]; the master takes a [uint16_t] position. *)
Definition slave_position (slave : lcec_slave) : Z := s_index slave mod 65536.

(** The result is the return value and the target buffer after the call. *)
Definition lcec_read_sdo (master : lcec_master) (slave : lcec_slave)
    (index subindex : Z) (target : list byte) (size : N) : prog (Z * list byte) :=
  r ← call (ecrt_master_sdo_upload (m_master master) (slave_position slave)
              index subindex target size);
  if decide (up_err r ≠ 0) then
    rtapi_print_msg (SdoUploadFailed (m_name master) (s_name slave) index subindex
                       (up_err r) (up_abort_code r));;
    mret (-1, up_target r)
  else if decide (up_result_size r ≠ size) then
    rtapi_print_msg (SdoUploadSize (m_name master) (s_name slave) index subindex
                       size (up_result_size r));;
    mret (-1, up_target r)
  else mret (0, up_target r).

Definition lcec_write_sdo (master : lcec_master) (slave : lcec_slave)
    (index subindex : Z) (value : list byte) (size : N) : prog Z :=
  r ← call (ecrt_master_sdo_download (m_master master) (slave_position slave)
              index subindex value size);
  if decide (dl_err r ≠ 0) then
    rtapi_print_msg (SdoDownloadFailed (m_name master) (s_name slave) index subindex
                       size (value !! 0%nat) (dl_err r) (dl_abort_code r));;
    mret (-1)
  else
    e ← call (ecrt_slave_config_sdo (s_config slave) index subindex value size);
    if decide (e ≠ 0) then
      rtapi_print_msg (SlaveSdoConfigFailed (m_name master) (s_name slave) index subindex);;
      mret (-1)
    else mret 0.

(** Modelled from the spec: [EC_WRITE_U8/U16/U32] and [EC_READ_U8/U16/U32]
    are macros of the EtherCAT master's header, which is not part of the
    sources at hand.  They put a scalar in the on-wire byte order of the
    fieldbus: the value narrowed to its width, least significant byte
    first. *)
Definition EC_WRITE_U8 (val : Z) : list byte := [byte.of_Z val].
Definition EC_WRITE_U16 (val : Z) : list byte :=
  [byte.of_Z val; byte.of_Z (Z.shiftr val 8)].
Definition EC_WRITE_U32 (val : Z) : list byte :=
  [byte.of_Z val; byte.of_Z (Z.shiftr val 8);
   byte.of_Z (Z.shiftr val 16); byte.of_Z (Z.shiftr val 24)].

Definition EC_READ_U8 (data : list byte) : option Z :=
  match data with
  | b0 :: _ => Some (byte.unsigned b0)
  | _ => None
  end.
Definition EC_READ_U16 (data : list byte) : option Z :=
  match data with
  | b0 :: b1 :: _ => Some (Z.lor (byte.unsigned b0) (Z.shiftl (byte.unsigned b1) 8))
  | _ => None
  end.
Definition EC_READ_U32 (data : list byte) : option Z :=
  match data with
  | b0 :: b1 :: b2 :: b3 :: _ =>
      Some (Z.lor (Z.lor (byte.unsigned b0) (Z.shiftl (byte.unsigned b1) 8))
              (Z.lor (Z.shiftl (byte.unsigned b2) 16) (Z.shiftl (byte.unsigned b3) 24)))
  | _ => None
  end.

Definition lcec_write_sdo8 (master : lcec_master) (slave : lcec_slave)
    (index subindex value : Z) : prog Z :=
  let data := EC_WRITE_U8 value in
  lcec_write_sdo master slave index subindex data 1.

Definition lcec_write_sdo16 (master : lcec_master) (slave : lcec_slave)
    (index subindex value : Z) : prog Z :=
  let data := EC_WRITE_U16 value in
  lcec_write_sdo master slave index subindex data 2.

Definition lcec_write_sdo32 (master : lcec_master) (slave : lcec_slave)
    (index subindex value : Z) : prog Z :=
  let data := EC_WRITE_U32 value in
  lcec_write_sdo master slave index subindex data 4.

Definition lcec_write_sdo8_modparam (master : lcec_master) (slave : lcec_slave)
    (index subindex value : Z) (mpname : string) : prog Z :=
  r ← lcec_write_sdo8 master slave index subindex value;
  if decide (r < 0) then
    rtapi_print_msg (ModparamSdoRejected (m_name master) (s_name slave) mpname
                       index subindex value);;
    mret (-1)
  else mret 0.

Definition lcec_write_sdo16_modparam (master : lcec_master) (slave : lcec_slave)
    (index subindex value : Z) (mpname : string) : prog Z :=
  r ← lcec_write_sdo16 master slave index subindex value;
  if decide (r < 0) then
    rtapi_print_msg (ModparamSdoRejected (m_name master) (s_name slave) mpname
                       index subindex value);;
    mret (-1)
  else mret 0.

Definition lcec_write_sdo32_modparam (master : lcec_master) (slave : lcec_slave)
    (index subindex value : Z) (mpname : string) : prog Z :=
  r ← lcec_write_sdo32 master slave index subindex value;
  if decide (r < 0) then
    rtapi_print_msg (ModparamSdoRejected (m_name master) (s_name slave) mpname
                       index subindex value);;
    mret (-1)
  else mret 0.

(** The result is the return value and the target buffer after the call. *)
Definition lcec_read_idn (master : lcec_master) (slave : lcec_slave)
    (drive_no idn : Z) (target : list byte) (size : N) : prog (Z * list byte) :=
  r ← call (ecrt_master_read_idn (m_master master) (slave_position slave)
              drive_no idn target size);
  if decide (idn_err r ≠ 0) then
    rtapi_print_msg (IdnReadFailed (m_name master) (s_name slave) drive_no idn
                       (idn_err r) (idn_error_code r));;
    mret (-1, idn_target r)
  else if decide (idn_result_size r ≠ size) then
    rtapi_print_msg (IdnReadSize (m_name master) (s_name slave) drive_no idn
                       size (idn_result_size r));;
    mret (-1, idn_target r)
  else mret (0, idn_target r).

(** A transport that stores what was downloaded: an object dictionary per
    slave position, read back by uploads.  An upload of an object that was
    never written, or into a buffer too small for it, is an error; drive
    parameters are not served. *)
Definition storing_transport : handler (gmap (Z * Z * Z) (list byte)) :=
  fun X c =>
    match c in ecrt_call X return gmap (Z * Z * Z) (list byte) → X * gmap (Z * Z * Z) (list byte) with
    | ecrt_master_sdo_download _ pos index subindex data size => fun od =>
        ({| dl_err := 0; dl_abort_code := 0 |},
         <[(pos, index, subindex) := take (N.to_nat size) data]> od)
    | ecrt_master_sdo_upload _ pos index subindex target size => fun od =>
        match od !! (pos, index, subindex) with
        | Some stored =>
            if decide (length stored ≤ N.to_nat size)%nat
            then ({| up_err := 0; up_target := stored ++ drop (length stored) target;
                     up_result_size := N.of_nat (length stored); up_abort_code := 0 |}, od)
            else ({| up_err := -75; up_target := target; up_result_size := 0;
                     up_abort_code := 0 |}, od)
        | None =>
            ({| up_err := -5; up_target := target; up_result_size := 0;
                up_abort_code := 0x06020000 |}, od)
        end
    | ecrt_slave_config_sdo _ _ _ _ _ => fun od => (0, od)
    | ecrt_master_read_idn _ _ _ _ target _ => fun od =>
        ({| idn_err := -5; idn_target := target; idn_result_size := 0;
            idn_error_code := 0 |}, od)
    end.

(** ** Concrete inputs *)

(** A frame length of the shape the specification describes: a command
    byte, per channel the payload and a checksum of two bytes, and a
    connection id of two bytes. *)
Definition example_fsoe_size (ch_count data_len : nat) : nat :=
  (1 + ch_count * (data_len + 2) + 2)%nat.

Definition example_slave (index : Z) (name : string) : lcec_slave :=
  {| s_index := index; s_name := name; s_config := 100 + index;
     s_fsoeConf := None; s_fsoe_slave_offset := None; s_fsoe_master_offset := None;
     s_modparams := None |}.

(** A slave with a safety channel of one channel and one payload byte each
    way (frames of six bytes), mapped at offsets 0 and 6 of the image. *)
Definition example_fsoe_slave : lcec_slave :=
  {| s_index := 3; s_name := "safety"; s_config := 103;
     s_fsoeConf := Some {| slave_data_len := 1; master_data_len := 1; data_channels := 1 |};
     s_fsoe_slave_offset := Some 0%nat; s_fsoe_master_offset := Some 6%nat;
     s_modparams :=
       Some [ {| mp_id := 1; mp_value := [Init.Byte.x01] |};
              {| mp_id := 2; mp_value := [Init.Byte.x02] |};
              {| mp_id := -1; mp_value := [] |};
              {| mp_id := 7; mp_value := [Init.Byte.x07] |} ] |}.

(** Three slaves, two of them at position 1. *)
Definition example_master : lcec_master :=
  {| m_name := "0"; m_master := 1;
     process_data := byte.of_Z <$> [0; 0; 0; 0; 0; 0; 21; 22; 23; 24; 25; 26;
                                    11; 12; 13; 14; 15; 16; 0; 0; 0; 0; 0; 0];
     first_slave := [example_slave 0 "coupler"; example_slave 1 "first";
                     example_slave 1 "second"] |}.

Definition example_master_distinct : lcec_master :=
  {| m_name := "0"; m_master := 1; process_data := [];
     first_slave := [example_slave 0 "coupler"; example_slave 1 "in";
                     example_slave 2 "out"] |}.

(** A transport that refuses every download, and one that accepts them
    and refuses every persistent registration. *)
Definition refusing_transport : handler unit :=
  fun X c =>
    match c in ecrt_call X return unit → X * unit with
    | ecrt_master_sdo_download _ _ _ _ _ _ => fun t =>
        ({| dl_err := -5; dl_abort_code := 0x06020000 |}, t)
    | ecrt_master_sdo_upload _ _ _ _ target _ => fun t =>
        ({| up_err := -5; up_target := target; up_result_size := 0;
            up_abort_code := 0x06020000 |}, t)
    | ecrt_slave_config_sdo _ _ _ _ _ => fun t => (0, t)
    | ecrt_master_read_idn _ _ _ _ target _ => fun t =>
        ({| idn_err := -5; idn_target := target; idn_result_size := 0;
            idn_error_code := 0 |}, t)
    end.

Definition forgetful_transport : handler unit :=
  fun X c =>
    match c in ecrt_call X return unit → X * unit with
    | ecrt_master_sdo_download _ _ _ _ _ _ => fun t =>
        ({| dl_err := 0; dl_abort_code := 0 |}, t)
    | ecrt_master_sdo_upload _ _ _ _ target size => fun t =>
        ({| up_err := 0; up_target := target; up_result_size := size + 1;
            up_abort_code := 0 |}, t)
    | ecrt_slave_config_sdo _ _ _ _ _ => fun t => (-12, t)
    | ecrt_master_read_idn _ _ _ _ target size => fun t =>
        ({| idn_err := 0; idn_target := target; idn_result_size := N.pred size;
            idn_error_code := 0 |}, t)
    end.

(** The set-up of one input sync manager with one PDO of two entries of
    eight bits. *)
Definition example_calls : list builder_call :=
  [AddSync EC_DIR_INPUT EC_WD_DEFAULT; AddPdo 0x1a00;
   AddEntry 0x6000 1 8; AddEntry 0x6000 2 8].

(** ** Further code of the file *)

(** How both messages of [lcec_read_idn] show the parameter number [idn]:
    ['P'] ([true]) or ['S'], then [(idn >> 12) & 0x0007], then
    [idn & 0x0fff]. *)
Definition idn_fields (idn : Z) : bool * Z * Z :=
  (negb (Z.land idn 0x8000 =? 0), Z.land (Z.shiftr idn 12) 0x0007, Z.land idn 0x0fff).

(** The parameter number that three such fields stand for. *)
Definition idn_of_fields (f : bool * Z * Z) : Z :=
  let '(p, set, num) := f in
  Z.lor (if p then 0x8000 else 0) (Z.lor (Z.shiftl set 12) num).

(** The run of a sync manager: [n_pdos] consecutive slots of the PDO table
    from its head pointer. *)
Definition pdo_run (s : lcec_syncs_t) (d : ec_sync_info_t) : list ec_pdo_info_t :=
  match pdos d with
  | None => []
  | Some h => take (n_pdos d) (drop h (pdo_infos s))
  end.

(** The indices of the PDOs added from here to the next [AddSync]. *)
Fixpoint pdos_while_current (calls : list builder_call) : list Z :=
  match calls with
  | [] => []
  | AddSync _ _ :: _ => []
  | AddPdo index :: rest => index :: pdos_while_current rest
  | AddEntry _ _ _ :: rest => pdos_while_current rest
  end.

(** The sync managers of a call sequence in the order they were added,
    each with its direction, its watchdog mode and the indices of the PDOs
    added while it was the current one. *)
Fixpoint sync_groups (calls : list builder_call)
    : list (ec_direction_t * ec_watchdog_mode_t * list Z) :=
  match calls with
  | [] => []
  | AddSync dir wd :: rest => (dir, wd, pdos_while_current rest) :: sync_groups rest
  | _ :: rest => sync_groups rest
  end.

(** Appending a PDO to the last sync manager of a list of groups. *)
Fixpoint snoc_pdo (index : Z) (gs : list (ec_direction_t * ec_watchdog_mode_t * list Z))
    : list (ec_direction_t * ec_watchdog_mode_t * list Z) :=
  match gs with
  | [] => []
  | [(dir, wd, ixs)] => [(dir, wd, ixs ++ [index])]
  | g :: gs' => g :: snoc_pdo index gs'
  end.

(** How the descriptor set reached by [calls] relates to the sync managers
    of [calls]: the counts, the current sync manager, the indices in the
    used part of the PDO table, the descriptor of each sync manager, and
    the unused sync slots. *)
Record sync_run_inv (max_sync : nat)
    (calls : list builder_call) (s : lcec_syncs_t) : Prop := {
  sri_syncs_len : length (syncs s) = S max_sync;
  sri_sync_count : sync_count s = length (sync_groups calls);
  sri_pdo_count : pdo_info_count s = length (concat (snd <$> sync_groups calls));
  sri_pdo_bound : (pdo_info_count s ≤ length (pdo_infos s))%nat;
  sri_curr_sync :
    curr_sync s = match sync_count s with O => None | S n => Some n end;
  sri_table :
    pi_index <$> take (pdo_info_count s) (pdo_infos s) =
    concat (snd <$> sync_groups calls);
  sri_groups : ∀ k dir wd ixs,
    sync_groups calls !! k = Some (dir, wd, ixs) →
    ∃ d, syncs s !! k = Some d ∧ si_index d = Z.of_nat k mod 256 ∧
         si_dir d = dir ∧ si_watchdog_mode d = wd ∧ n_pdos d = length ixs ∧
         pdos d = match ixs with
                  | [] => None
                  | _ => Some (length (concat (snd <$> take k (sync_groups calls))))
                  end;
  sri_free : ∀ k,
    (sync_count s ≤ k)%nat → (k ≤ max_sync)%nat →
    ∃ d, syncs s !! k = Some d ∧ n_pdos d = O ∧ pdos d = None;
}.

(** ** HAL parameters *)

(** [hal_type_t] of LinuxCNC's HAL, as far as this file tells the types
    apart: the four it initialises, the one that ends a descriptor list,
    and any other enumerator. *)
Inductive hal_type_t :=
| HAL_TYPE_UNSPECIFIED
| HAL_BIT
| HAL_FLOAT
| HAL_S32
| HAL_U32
| HAL_TYPE_OTHER (n : Z).

#[global] Instance hal_type_eq_dec : EqDecision hal_type_t.
Proof. solve_decision. Defined.

(** Modelled from the spec: [lcec_pindesc_t] is declared in [lcec.h], which
    is not part of the sources at hand; the fields are those the loop of
    [lcec_param_newfv_list] reads. *)
Record lcec_pindesc_t := {
  pd_type : hal_type_t;
  pd_dir : Z;
  pd_offset : Z;
  pd_fmt : string;
}.

(** [ENOMEM] of [errno.h]. *)
Definition ENOMEM : Z := 12.

(** The two messages of [lcec_param_newfv]. *)
Inductive hal_diag :=
| ParamNameTooLong (sz : Z) (name : string)
| ParamExportFailed (name : string).

(** Code that exports HAL parameters: it calls [hal_param_new], stores a
    zero of a HAL type through a pointer, and prints. *)
Inductive hal_prog (R : Type) : Type :=
| HRet (r : R)
| HParamNew (name : string) (type : hal_type_t) (dir data_addr comp_id : Z)
    (k : Z → hal_prog R)
| HZero (type : hal_type_t) (data_addr : Z) (k : hal_prog R)
| HPrint (m : hal_diag) (k : hal_prog R).
Arguments HRet {R} r.
Arguments HParamNew {R} name type dir data_addr comp_id k.
Arguments HZero {R} type data_addr k.
Arguments HPrint {R} m k.

Fixpoint hal_bind {A B : Type} (f : A → hal_prog B) (p : hal_prog A) : hal_prog B :=
  match p with
  | HRet r => f r
  | HParamNew name type dir data_addr comp_id k =>
      HParamNew name type dir data_addr comp_id (fun x => hal_bind f (k x))
  | HZero type data_addr k => HZero type data_addr (hal_bind f k)
  | HPrint m k => HPrint m (hal_bind f k)
  end.

#[global] Instance hal_prog_mret : MRet hal_prog := @HRet.
#[global] Instance hal_prog_mbind : MBind hal_prog := @hal_bind.

Definition hal_param_new (name : string) (type : hal_type_t)
    (dir data_addr comp_id : Z) : hal_prog Z :=
  HParamNew name type dir data_addr comp_id HRet.
Definition hal_store_zero (type : hal_type_t) (data_addr : Z) : hal_prog unit :=
  HZero type data_addr (HRet tt).
Definition hal_print_msg (m : hal_diag) : hal_prog unit := HPrint m (HRet tt).

(** What running a [hal_prog] leaves behind, in order. *)
Inductive hal_event :=
| ParamNew (name : string) (type : hal_type_t) (dir data_addr comp_id : Z) (err : Z)
| Zeroed (type : hal_type_t) (data_addr : Z)
| HalPrinted (m : hal_diag).

Record hal_outcome (H R : Type) := {
  hal_ret : R;
  hal_state : H;
  hal_trace : list hal_event;
}.
Arguments hal_ret {H R} _.
Arguments hal_state {H R} _.
Arguments hal_trace {H R} _.

(** The HAL answers each export from its state. *)
Definition hal_handler (H : Type) : Type :=
  string → hal_type_t → Z → Z → Z → H → Z * H.

Fixpoint hal_run {H R : Type} (h : hal_handler H) (p : hal_prog R) (st : H)
    : hal_outcome H R :=
  match p with
  | HRet r => {| hal_ret := r; hal_state := st; hal_trace := [] |}
  | HParamNew name type dir data_addr comp_id k =>
      let '(err, st') := h name type dir data_addr comp_id st in
      let o := hal_run h (k err) st' in
      {| hal_ret := hal_ret o; hal_state := hal_state o;
         hal_trace := ParamNew name type dir data_addr comp_id err :: hal_trace o |}
  | HZero type data_addr k =>
      let o := hal_run h k st in
      {| hal_ret := hal_ret o; hal_state := hal_state o;
         hal_trace := Zeroed type data_addr :: hal_trace o |}
  | HPrint m k =>
      let o := hal_run h k st in
      {| hal_ret := hal_ret o; hal_state := hal_state o;
         hal_trace := HalPrinted m :: hal_trace o |}
  end.

(** The exports of a trace, each with its result, and the stores. *)
Definition param_news (tr : list hal_event)
    : list (string * hal_type_t * Z * Z * Z * Z) :=
  omap (fun e => match e with
                 | ParamNew name type dir data_addr comp_id err =>
                     Some (name, type, dir, data_addr, comp_id, err)
                 | _ => None
                 end) tr.

Definition zeroed (tr : list hal_event) : list (hal_type_t * Z) :=
  omap (fun e => match e with
                 | Zeroed type data_addr => Some (type, data_addr)
                 | _ => None
                 end) tr.

(** The types whose parameter [lcec_param_newfv] initialises. *)
Definition zero_typed (type : hal_type_t) : bool :=
  match type with
  | HAL_BIT | HAL_FLOAT | HAL_S32 | HAL_U32 => true
  | _ => false
  end.

Section HalParams.

(** The variable arguments of a call, [rtapi_vsnprintf] (its return value
    and the buffer it filled, from the buffer size, the format and the
    arguments), [HAL_NAME_LEN] of LinuxCNC's HAL, and the component id
    held by the global [lcec_comp_id]. *)
Variable va_list : Type.
Variable rtapi_vsnprintf : Z → string → va_list → Z * string.
Variable HAL_NAME_LEN : Z.
Variable lcec_comp_id : Z.

Definition lcec_param_newfv (type : hal_type_t) (dir data_addr : Z)
    (fmt : string) (ap : va_list) : hal_prog Z :=
  let '(sz, name) := rtapi_vsnprintf (HAL_NAME_LEN + 1) fmt ap in
  if decide (sz = -1 ∨ sz > HAL_NAME_LEN) then
    hal_print_msg (ParamNameTooLong sz name);;
    mret (- ENOMEM)
  else
    err ← hal_param_new name type dir data_addr lcec_comp_id;
    if decide (err ≠ 0) then
      hal_print_msg (ParamExportFailed name);;
      mret err
    else
      match type with
      | HAL_BIT => hal_store_zero HAL_BIT data_addr
      | HAL_FLOAT => hal_store_zero HAL_FLOAT data_addr
      | HAL_S32 => hal_store_zero HAL_S32 data_addr
      | HAL_U32 => hal_store_zero HAL_U32 data_addr
      | _ => mret tt
      end;;
      mret 0.

Definition lcec_param_newf (type : hal_type_t) (dir data_addr : Z)
    (fmt : string) (args : va_list) : hal_prog Z :=
  lcec_param_newfv type dir data_addr fmt args.

(** The loop [for (p = list; p->type != HAL_TYPE_UNSPECIFIED; p++)]; the
    result [None] is a read past the end of the array. *)
Fixpoint lcec_param_newfv_list (base : Z) (list : list lcec_pindesc_t) (ap : va_list)
    : hal_prog (option Z) :=
  match list with
  | [] => mret None
  | p :: list' =>
      if decide (pd_type p = HAL_TYPE_UNSPECIFIED) then mret (Some 0)
      else
        err ← lcec_param_newfv (pd_type p) (pd_dir p) (base + pd_offset p) (pd_fmt p) ap;
        if decide (err ≠ 0) then mret (Some err)
        else lcec_param_newfv_list base list' ap
  end.

Definition lcec_param_newf_list (base : Z) (list : list lcec_pindesc_t) (args : va_list)
    : hal_prog (option Z) :=
  lcec_param_newfv_list base list args.

(** A descriptor whose formatted name fits a HAL name, and the export
    [lcec_param_newfv] asks for it. *)
Definition name_fits (p : lcec_pindesc_t) (ap : va_list) : Prop :=
  let sz := (rtapi_vsnprintf (HAL_NAME_LEN + 1) (pd_fmt p) ap).1 in
  ¬ (sz = -1 ∨ sz > HAL_NAME_LEN).

Definition export_of (base : Z) (ap : va_list) (p : lcec_pindesc_t) (err : Z)
    : string * hal_type_t * Z * Z * Z * Z :=
  ((rtapi_vsnprintf (HAL_NAME_LEN + 1) (pd_fmt p) ap).2, pd_type p, pd_dir p,
   base + pd_offset p, lcec_comp_id, err).

Definition zero_of (base : Z) (p : lcec_pindesc_t) : hal_type_t * Z :=
  (pd_type p, base + pd_offset p).

End HalParams.

(** A formatter that puts the argument, a dot and the format together, and
    a HAL that records the names it exported and refuses a name twice
    ([-EINVAL]). *)
Definition example_vsnprintf (size : Z) (fmt : string) (ap : string) : Z * string :=
  let name := (ap +:+ "." +:+ fmt)%string in
  (Z.of_nat (String.length name), name).

Definition example_hal : hal_handler (list string) :=
  fun name _ _ _ _ st =>
    if decide (name ∈ st) then (-22, st) else (0, name :: st).

Definition example_pindescs : list lcec_pindesc_t :=
  [ {| pd_type := HAL_BIT; pd_dir := 64; pd_offset := 0; pd_fmt := "invert" |};
    {| pd_type := HAL_FLOAT; pd_dir := 64; pd_offset := 8; pd_fmt := "scale" |};
    {| pd_type := HAL_BIT; pd_dir := 64; pd_offset := 16; pd_fmt := "invert" |};
    {| pd_type := HAL_U32; pd_dir := 64; pd_offset := 24; pd_fmt := "raw" |};
    {| pd_type := HAL_TYPE_UNSPECIFIED; pd_dir := 0; pd_offset := 0; pd_fmt := "" |};
    {| pd_type := HAL_S32; pd_dir := 64; pd_offset := 32; pd_fmt := "late" |} ].

(** * Properties *)

(** ** Slave registry *)

Section Registry.

Implicit Types (slaves l : list lcec_slave) (s : lcec_slave) (index : Z).

Lemma slave_scan_absent slaves index :
  index ∉ s_index <$> slaves → slave_scan slaves index = None.
Proof.
  induction slaves as [|s next IH]; simpl; [done|].
  rewrite not_elem_of_cons. intros [Hs Hnext].
  destruct (decide (s_index s = index)); [congruence | auto].
Qed.

Lemma slave_scan_first l1 s l2 :
  Forall (fun s' => s_index s' ≠ s_index s) l1 →
  slave_scan (l1 ++ s :: l2) (s_index s) = Some s.
Proof.
  induction 1 as [|s' l1 Hne _ IH]; simpl.
  - by rewrite decide_True.
  - by rewrite decide_False.
Qed.

Lemma slave_scan_present slaves s :
  NoDup (s_index <$> slaves) → s ∈ slaves → slave_scan slaves (s_index s) = Some s.
Proof.
  induction slaves as [|s' next IH]; simpl.
  - intros _ Hin. by apply elem_of_nil in Hin.
  - rewrite NoDup_cons, elem_of_cons. intros [Hfresh Hnd] [->|Hin].
    + by rewrite decide_True.
    + rewrite decide_False; [auto|].
      intros Heq. apply Hfresh. rewrite Heq. by apply list_elem_of_fmap_2.
Qed.

Lemma slave_scan_some slaves index s :
  slave_scan slaves index = Some s → s ∈ slaves ∧ s_index s = index.
Proof.
  induction slaves as [|s' next IH]; simpl; [done|].
  destruct (decide (s_index s' = index)).
  - intros [= ->]. split; [left | done].
  - intros H. destruct (IH H). split; [by right | done].
Qed.

End Registry.

(** C6: among slaves with pairwise distinct indices (none, one or many),
    looking up the index of a slave of the list returns that slave, which
    is the only one of the list carrying the index, and looking up an index
    that no slave carries returns the not-found result; a slave that is
    returned is one of the list and carries the index asked for. *)
Theorem lcec_slave_by_index_distinct (master : lcec_master) :
  NoDup (s_index <$> first_slave master) →
  (∀ s, s ∈ first_slave master →
     lcec_slave_by_index master (s_index s) = Some s ∧
     ∀ s', s' ∈ first_slave master → s_index s' = s_index s → s' = s) ∧
  (∀ index, index ∉ s_index <$> first_slave master →
     lcec_slave_by_index master index = None) ∧
  (∀ index s, lcec_slave_by_index master index = Some s →
     s ∈ first_slave master ∧ s_index s = index).
Proof.
  intros Hnd. unfold lcec_slave_by_index. split; [|split].
  - intros s Hs. split; [by apply slave_scan_present|].
    intros s' Hs' Heq.
    pose proof (slave_scan_present _ _ Hnd Hs') as H'.
    pose proof (slave_scan_present _ _ Hnd Hs) as H.
    rewrite Heq in H'. congruence.
  - intros index. apply slave_scan_absent.
  - intros index s. apply slave_scan_some.
Qed.

(** C9: when several slaves carry the requested index, the lookup returns
    the one met first along the chain: whatever follows it, duplicates
    included, is not looked at. *)
Theorem lcec_slave_by_index_earliest (master : lcec_master) (l1 l2 : list lcec_slave) (s : lcec_slave) :
  first_slave master = l1 ++ s :: l2 →
  Forall (fun s' => s_index s' ≠ s_index s) l1 →
  lcec_slave_by_index master (s_index s) = Some s.
Proof.
  intros Hchain Hbefore. unfold lcec_slave_by_index.
  rewrite Hchain. by apply slave_scan_first.
Qed.

(** ** Module parameters *)

Section Modparams.

Implicit Types (pre post : list lcec_slave_modparam_t) (e : lcec_slave_modparam_t).

Lemma modparam_scan_sentinel pre e post id :
  Forall (fun e' => mp_id e' >= 0) pre → mp_id e < 0 →
  modparam_scan (pre ++ e :: post) id = Some (first_with_id id pre).
Proof.
  intros Hpre He. unfold first_with_id.
  induction Hpre as [|e' pre Hid _ IH]; simpl.
  - rewrite decide_False by lia. done.
  - rewrite decide_True by done.
    destruct (decide (mp_id e' = id)) as [Heq|Hne].
    + by rewrite bool_decide_eq_true_2.
    + by rewrite bool_decide_eq_false_2.
Qed.

End Modparams.

(** C10: without a parameter array the result is [NULL]; with an array
    whose first negative id is at [e], the result is the value of the first
    element before [e] carrying the requested id, or [NULL] when there is
    none; what follows [e] plays no part. *)
Theorem lcec_modparam_get_spec (slave : lcec_slave) (id : Z) :
  (s_modparams slave = None → lcec_modparam_get slave id = Some None) ∧
  (∀ pre e post,
     s_modparams slave = Some (pre ++ e :: post) →
     Forall (fun e' => mp_id e' >= 0) pre → mp_id e < 0 →
     lcec_modparam_get slave id = Some (first_with_id id pre)).
Proof.
  unfold lcec_modparam_get. split.
  - by intros ->.
  - intros pre e post -> Hpre He. by apply modparam_scan_sentinel.
Qed.

(** ** Configuration channel *)

Section Channel.

Context {T : Type} (h : handler T).

Lemma run_bind {A B : Type} (p : prog A) (f : A → prog B) (t : T) :
  run h (p ≫= f) t =
  let o := run h p t in
  let o' := run h (f (ret o)) (transport o) in
  {| ret := ret o'; transport := transport o'; trace := trace o ++ trace o' |}.
Proof.
  revert t. induction p as [r|X c k IH|m k IH]; intros t.
  - simpl. by destruct (run h (f r) t).
  - change (run h (Call c k ≫= f) t) with
      (let '(x, t') := h _ c t in
       let o := run h (k x ≫= f) t' in
       {| ret := ret o; transport := transport o; trace := Called c x :: trace o |}).
    simpl. destruct (h X c t) as [x t']. rewrite IH. done.
  - change (run h (Print m k ≫= f) t) with
      (let o := run h (k ≫= f) t in
       {| ret := ret o; transport := transport o; trace := Printed m :: trace o |}).
    simpl. rewrite IH. done.
Qed.

(** The three ways [lcec_write_sdo] can go, by the answers of the
    transport. *)
Lemma run_lcec_write_sdo master slave index subindex value size (t : T) :
  let dl_call := ecrt_master_sdo_download (m_master master) (slave_position slave)
                   index subindex value size in
  let cf_call := ecrt_slave_config_sdo (s_config slave) index subindex value size in
  let dl := h _ dl_call t in
  let cf := h _ cf_call dl.2 in
  run h (lcec_write_sdo master slave index subindex value size) t =
  if decide (dl_err dl.1 ≠ 0) then
    {| ret := -1; transport := dl.2;
       trace := [Called dl_call dl.1;
                 Printed (SdoDownloadFailed (m_name master) (s_name slave) index subindex
                            size (value !! 0%nat) (dl_err dl.1) (dl_abort_code dl.1))] |}
  else if decide (cf.1 ≠ 0) then
    {| ret := -1; transport := cf.2;
       trace := [Called dl_call dl.1; Called cf_call cf.1;
                 Printed (SlaveSdoConfigFailed (m_name master) (s_name slave)
                            index subindex)] |}
  else
    {| ret := 0; transport := cf.2;
       trace := [Called dl_call dl.1; Called cf_call cf.1] |}.
Proof.
  intros dl_call cf_call dl cf. subst dl cf dl_call cf_call.
  unfold lcec_write_sdo. cbn.
  destruct (h _ (ecrt_master_sdo_download _ _ _ _ _ _) t) as [r t1]. cbn.
  destruct (decide (dl_err r ≠ 0)); [done|]. cbn.
  destruct (h _ (ecrt_slave_config_sdo _ _ _ _ _) t1) as [e t2]. cbn.
  destruct (decide (e ≠ 0)); done.
Qed.

Lemma lcec_write_sdo_ret master slave index subindex value size (t : T) :
  ret (run h (lcec_write_sdo master slave index subindex value size) t) = 0 ∨
  ret (run h (lcec_write_sdo master slave index subindex value size) t) = -1.
Proof.
  rewrite run_lcec_write_sdo. cbv zeta. repeat case_decide; auto.
Qed.

(** A wrapper that turns a negative result into [-1] after printing. *)
Lemma run_tagged (p : prog Z) (m : diag) (t : T) :
  ret (run h p t) = 0 ∨ ret (run h p t) = -1 →
  let o := run h p t in
  let o' := run h (r ← p; if decide (r < 0)
                          then rtapi_print_msg m;; mret (-1) else mret 0) t in
  ret o' = ret o ∧ transport o' = transport o ∧
  trace o' = trace o ++ (if decide (ret o = 0) then [] else [Printed m]).
Proof.
  intros Hret. cbv zeta. rewrite run_bind. cbv zeta.
  destruct Hret as [-> | ->]; cbn; by rewrite ?app_nil_r.
Qed.

(** C1: [lcec_write_sdo] is two-phase.  Against any transport, in any
    state: when the download is refused the result is [-1], the download
    is the only call made and the persistent registration is never
    invoked; when the download is accepted and the registration is refused
    the result is [-1] although the download was made, and nothing undoes
    it; the result is [0] exactly when both are accepted. *)
Theorem lcec_write_sdo_two_phase master slave index subindex value size (t : T) :
  let dl_call := ecrt_master_sdo_download (m_master master) (slave_position slave)
                   index subindex value size in
  let cf_call := ecrt_slave_config_sdo (s_config slave) index subindex value size in
  let dl := h _ dl_call t in
  let cf := h _ cf_call dl.2 in
  let o := run h (lcec_write_sdo master slave index subindex value size) t in
  (dl_err dl.1 ≠ 0 →
     ret o = -1 ∧ transport o = dl.2 ∧
     List.filter is_called (trace o) = [Called dl_call dl.1] ∧
     Forall (fun e => is_config_sdo e = false) (trace o)) ∧
  (dl_err dl.1 = 0 → cf.1 ≠ 0 →
     ret o = -1 ∧ transport o = cf.2 ∧
     List.filter is_called (trace o) = [Called dl_call dl.1; Called cf_call cf.1]) ∧
  (dl_err dl.1 = 0 → cf.1 = 0 →
     ret o = 0 ∧ transport o = cf.2 ∧
     trace o = [Called dl_call dl.1; Called cf_call cf.1]) ∧
  (ret o = 0 ↔ dl_err dl.1 = 0 ∧ cf.1 = 0) ∧
  (ret o = 0 ∨ ret o = -1).
Proof.
  intros dl_call cf_call dl cf o.
  pose proof (run_lcec_write_sdo master slave index subindex value size t) as Hrun.
  cbv zeta in Hrun. fold dl_call cf_call in Hrun. fold dl in Hrun. fold cf in Hrun.
  fold o in Hrun. clearbody o dl cf.
  destruct (decide (dl_err dl.1 ≠ 0)) as [Hdl|Hdl]; [|apply dec_stable in Hdl].
  - rewrite Hrun. cbn. repeat split; try done.
    + repeat constructor.
    + intros [? _]. done.
    + auto.
  - destruct (decide (cf.1 ≠ 0)) as [Hcf|Hcf]; [|apply dec_stable in Hcf];
      rewrite Hrun; cbn; repeat split; try done; auto.
    intros [_ ?]. done.
Qed.

(** C2: [lcec_read_sdo] and [lcec_read_idn] return [0] exactly when the
    transport reports no error and wrote as many bytes as were asked for;
    any error, and any other byte count, short or long, gives [-1].  The
    buffer is handed back as the transport left it, neither cut nor
    padded. *)
Theorem lcec_read_size_checked master slave index subindex drive_no idn target size (t : T) :
  let up := (h _ (ecrt_master_sdo_upload (m_master master) (slave_position slave)
                    index subindex target size) t).1 in
  let rd := (h _ (ecrt_master_read_idn (m_master master) (slave_position slave)
                    drive_no idn target size) t).1 in
  let o := run h (lcec_read_sdo master slave index subindex target size) t in
  let o' := run h (lcec_read_idn master slave drive_no idn target size) t in
  ((ret o).1 = 0 ↔ up_err up = 0 ∧ up_result_size up = size) ∧
  ((ret o).1 = -1 ↔ up_err up ≠ 0 ∨ up_result_size up ≠ size) ∧
  (ret o).2 = up_target up ∧
  ((ret o').1 = 0 ↔ idn_err rd = 0 ∧ idn_result_size rd = size) ∧
  ((ret o').1 = -1 ↔ idn_err rd ≠ 0 ∨ idn_result_size rd ≠ size) ∧
  (ret o').2 = idn_target rd.
Proof.
  cbv zeta. unfold lcec_read_sdo, lcec_read_idn. cbn.
  destruct (h _ (ecrt_master_sdo_upload _ _ _ _ _ _) t) as [up t1].
  destruct (h _ (ecrt_master_read_idn _ _ _ _ _ _) t) as [rd t2]. cbn.
  destruct (decide (up_err up ≠ 0)) as [?|?%dec_stable];
    [|destruct (decide (up_result_size up ≠ size)) as [?|?%dec_stable]];
  (destruct (decide (idn_err rd ≠ 0)) as [?|?%dec_stable];
    [|destruct (decide (idn_result_size rd ≠ size)) as [?|?%dec_stable]]);
  cbn; intuition (auto; try done; try lia).
Qed.

(** C8: each named-option variant returns what its fixed-width helper
    returns on the same arguments, leaves the transport in the same state
    and makes the same calls; its trace is the helper's, followed on
    failure by one more message that names the option. *)
Theorem lcec_write_sdo_modparam_same_outcome master slave index subindex value mpname (t : T) :
  let m := ModparamSdoRejected (m_name master) (s_name slave) mpname index subindex value in
  let same (o o' : outcome T Z) :=
    ret o' = ret o ∧ (ret o' = 0 ∨ ret o' = -1) ∧ transport o' = transport o ∧
    List.filter is_called (trace o') = List.filter is_called (trace o) ∧
    trace o' = trace o ++ (if decide (ret o = 0) then [] else [Printed m]) in
  same (run h (lcec_write_sdo8 master slave index subindex value) t)
       (run h (lcec_write_sdo8_modparam master slave index subindex value mpname) t) ∧
  same (run h (lcec_write_sdo16 master slave index subindex value) t)
       (run h (lcec_write_sdo16_modparam master slave index subindex value mpname) t) ∧
  same (run h (lcec_write_sdo32 master slave index subindex value) t)
       (run h (lcec_write_sdo32_modparam master slave index subindex value mpname) t).
Proof.
  intros m same.
  assert (Hsame : ∀ p : prog Z,
    ret (run h p t) = 0 ∨ ret (run h p t) = -1 →
    same (run h p t)
         (run h (r ← p; if decide (r < 0)
                        then rtapi_print_msg m;; mret (-1) else mret 0) t)).
  { intros p Hret. destruct (run_tagged p m t Hret) as (Hr & Ht & Htr).
    unfold same. rewrite Hr, Ht, Htr. repeat split; try done.
    rewrite List.filter_app. case_decide; cbn; by rewrite app_nil_r. }
  repeat split; apply Hsame; apply lcec_write_sdo_ret.
Qed.

End Channel.

(** ** Fixed-width helpers against the storing transport *)

Section RoundTrip.

Implicit Types (od : gmap (Z * Z * Z) (list byte)).

Lemma EC_U8_round_trip (v : Z) (rest : list byte) :
  EC_READ_U8 (EC_WRITE_U8 v ++ rest) = Some (v mod 2 ^ 8).
Proof. cbn. by rewrite byte.unsigned_of_Z. Qed.

Lemma EC_U16_round_trip (v : Z) (rest : list byte) :
  EC_READ_U16 (EC_WRITE_U16 v ++ rest) = Some (v mod 2 ^ 16).
Proof.
  cbn. rewrite !byte.unsigned_of_Z. unfold byte.wrap. f_equal.
  rewrite <- !Z.land_ones by lia.
  Z.bitblast.
Qed.

Lemma EC_U32_round_trip (v : Z) (rest : list byte) :
  EC_READ_U32 (EC_WRITE_U32 v ++ rest) = Some (v mod 2 ^ 32).
Proof.
  cbn. rewrite !byte.unsigned_of_Z. unfold byte.wrap. f_equal.
  rewrite <- !Z.land_ones by lia.
  Z.bitblast.
Qed.

(** A write through [lcec_write_sdo] of [size] bytes, then a read of as
    many through [lcec_read_sdo], both against the storing transport. *)
Lemma write_then_read master slave index subindex data target od :
  let size := N.of_nat (length data) in
  let pos := slave_position slave in
  let o := run storing_transport (lcec_write_sdo master slave index subindex data size) od in
  let o' := run storing_transport
              (lcec_read_sdo master slave index subindex target size) (transport o) in
  ret o = 0 ∧
  trace o =
    [Called (ecrt_master_sdo_download (m_master master) pos index subindex data size)
       {| dl_err := 0; dl_abort_code := 0 |};
     Called (ecrt_slave_config_sdo (s_config slave) index subindex data size) 0] ∧
  transport o !! (pos, index, subindex) = Some data ∧
  ret o' = (0, data ++ drop (length data) target).
Proof.
  intros size pos o o'.
  assert (Ho : o = {| ret := 0;
                      transport := <[(pos, index, subindex) := data]> od;
                      trace := [Called (ecrt_master_sdo_download (m_master master) pos
                                          index subindex data size)
                                  {| dl_err := 0; dl_abort_code := 0 |};
                                Called (ecrt_slave_config_sdo (s_config slave)
                                          index subindex data size) 0] |}).
  { subst o. rewrite run_lcec_write_sdo. cbv zeta.
    change (storing_transport _ (ecrt_master_sdo_download ?m ?p ?i ?s ?d ?n) ?st)
      with ({| dl_err := 0; dl_abort_code := 0 |}, <[(p, i, s) := take (N.to_nat n) d]> st).
    cbn [fst snd dl_err].
    rewrite decide_False by (intros H; by apply H).
    change (storing_transport _ (ecrt_slave_config_sdo ?c ?i ?s ?d ?n) ?st) with (0, st).
    cbn [fst snd].
    rewrite decide_False by (intros H; by apply H).
    subst size. rewrite Nat2N.id, firstn_all. done. }
  assert (Hlook : transport o !! (pos, index, subindex) = Some data).
  { rewrite Ho. cbn [transport]. apply lookup_insert_eq. }
  split; [by rewrite Ho|]. split; [by rewrite Ho|]. split; [done|].
  subst o'. unfold lcec_read_sdo.
  change (run storing_transport (call ?c ≫= ?f) ?st)
    with (let '(x, t') := storing_transport _ c st in
          let o := run storing_transport (f x) t' in
          {| ret := ret o; transport := transport o; trace := Called c x :: trace o |}).
  change (storing_transport _ (ecrt_master_sdo_upload ?m ?p ?i ?s ?tg ?n) ?st)
    with (match st !! (p, i, s) with
          | Some stored =>
              if decide (length stored ≤ N.to_nat n)%nat
              then ({| up_err := 0; up_target := stored ++ drop (length stored) tg;
                       up_result_size := N.of_nat (length stored); up_abort_code := 0 |}, st)
              else ({| up_err := -75; up_target := tg; up_result_size := 0;
                       up_abort_code := 0 |}, st)
          | None =>
              ({| up_err := -5; up_target := tg; up_result_size := 0;
                  up_abort_code := 0x06020000 |}, st)
          end).
  fold pos. rewrite Hlook. subst size. rewrite Nat2N.id.
  rewrite decide_True by done.
  cbn [up_err up_result_size up_target].
  rewrite decide_False by (intros H; by apply H).
  rewrite decide_False by (intros H; by apply H).
  done.
Qed.

End RoundTrip.

(** C7: each fixed-width helper hands [lcec_write_sdo] a buffer of exactly
    1, 2 or 4 bytes, the value least significant byte first, with that
    size.  Against the storing transport the write succeeds, and reading
    the same object back with the same size succeeds and decodes to the
    value narrowed to the width: to the value itself, for every value of
    the width. *)
Theorem lcec_write_sdo_fixed_width_round_trip
    (master : lcec_master) (slave : lcec_slave) (index subindex value : Z)
    (target : list byte) (od : gmap (Z * Z * Z) (list byte)) :
  let round_trip (helper : prog Z) (data : list byte) (size : N)
                 (decode : list byte → option Z) (bits : Z) :=
    let o := run storing_transport helper od in
    let o' := run storing_transport
                (lcec_read_sdo master slave index subindex target size) (transport o) in
    helper = lcec_write_sdo master slave index subindex data size ∧
    N.of_nat (length data) = size ∧ 8 * Z.of_N size = bits ∧
    ret o = 0 ∧ (ret o').1 = 0 ∧
    decode (ret o').2 = Some (value mod 2 ^ bits) ∧
    (0 ≤ value < 2 ^ bits → decode (ret o').2 = Some value) in
  round_trip (lcec_write_sdo8 master slave index subindex value)
             (EC_WRITE_U8 value) 1%N EC_READ_U8 8 ∧
  round_trip (lcec_write_sdo16 master slave index subindex value)
             (EC_WRITE_U16 value) 2%N EC_READ_U16 16 ∧
  round_trip (lcec_write_sdo32 master slave index subindex value)
             (EC_WRITE_U32 value) 4%N EC_READ_U32 32.
Proof.
  intros round_trip.
  assert (Hrt : ∀ data bits decode,
    8 * Z.of_N (N.of_nat (length data)) = bits →
    (∀ rest, decode (data ++ rest) = Some (value mod 2 ^ bits)) →
    round_trip (lcec_write_sdo master slave index subindex data (N.of_nat (length data)))
               data (N.of_nat (length data)) decode bits).
  { intros data bits decode Hbits Hdec.
    destruct (write_then_read master slave index subindex data target od)
      as (Hret & _ & _ & Hread).
    unfold round_trip. rewrite Hret, Hread. cbn [fst snd].
    repeat split; try done.
    intros Hrange. rewrite Hdec. by rewrite Z.mod_small. }
  split; [|split].
  - apply (Hrt (EC_WRITE_U8 value) 8 EC_READ_U8); [done | apply EC_U8_round_trip].
  - apply (Hrt (EC_WRITE_U16 value) 16 EC_READ_U16); [done | apply EC_U16_round_trip].
  - apply (Hrt (EC_WRITE_U32 value) 32 EC_READ_U32); [done | apply EC_U32_round_trip].
Qed.

(** ** Process image relay *)

Section RelayProps.

Local Open Scope nat_scope.

Variable LCEC_FSOE_SIZE : nat → nat → nat.

Implicit Types (pd : list byte) (dst src n k : nat).

Lemma memcpy_ok pd dst src n :
  copy_ok (length pd) dst src n →
  ∃ pd', memcpy pd dst src n = Some pd' ∧
         length pd' = length pd ∧
         take n (drop dst pd') = take n (drop src pd) ∧
         (∀ k, ¬ (dst ≤ k < dst + n) → pd' !! k = pd !! k).
Proof.
  intros Hok. unfold memcpy. rewrite decide_True by exact Hok.
  destruct Hok as (Hdst & Hsrc & _).
  eexists. split; [done|].
  assert (Hl1 : length (take dst pd) = dst) by (rewrite length_take; lia).
  assert (Hl2 : length (take n (drop src pd)) = n)
    by (rewrite length_take, length_drop; lia).
  split; [|split].
  - rewrite !length_app, Hl1, Hl2, length_drop. lia.
  - rewrite drop_app_length' by done. by rewrite take_app_length'.
  - intros k Hk. destruct (decide (k < dst)) as [Hlt|Hge].
    + rewrite lookup_app_l by lia. by rewrite lookup_take_lt.
    + rewrite lookup_app_r by lia. rewrite lookup_app_r by lia.
      rewrite lookup_drop, Hl1, Hl2. f_equal. lia.
Qed.

(** C4: without a safety channel mapping ([fsoeConf] is [NULL])
    [copy_fsoe_data] leaves the image as it is, whatever the offsets.  With
    a mapping, and both copies inside the image with source and
    destination apart, the image goes through [pd1] to [pd2]: if there is
    a slave-facing offset, [pd1] holds at that offset the
    [LCEC_FSOE_SIZE (data_channels, slave_data_len)] bytes that were at
    [slave_offset], and is the image elsewhere; if there is a
    master-facing offset, [pd2] holds at [master_offset] the
    [LCEC_FSOE_SIZE (data_channels, master_data_len)] bytes that [pd1] has
    at that offset, and is [pd1] elsewhere; a missing offset means no
    copy.  A byte in neither destination is the same in [pd2] as in the
    image. *)
Theorem copy_fsoe_data_spec (master : lcec_master) (slave : lcec_slave)
    (slave_offset master_offset : nat) :
  let pd := process_data master in
  let result := copy_fsoe_data LCEC_FSOE_SIZE master slave slave_offset master_offset in
  (s_fsoeConf slave = None → result = Some pd) ∧
  (∀ fsoeConf, s_fsoeConf slave = Some fsoeConf →
     let n1 := LCEC_FSOE_SIZE (data_channels fsoeConf) (slave_data_len fsoeConf) in
     let n2 := LCEC_FSOE_SIZE (data_channels fsoeConf) (master_data_len fsoeConf) in
     (∀ off, s_fsoe_slave_offset slave = Some off →
        copy_ok (length pd) off slave_offset n1) →
     (∀ off, s_fsoe_master_offset slave = Some off →
        copy_ok (length pd) master_offset off n2) →
     ∃ pd1 pd2,
       result = Some pd2 ∧ length pd1 = length pd ∧ length pd2 = length pd ∧
       match s_fsoe_slave_offset slave with
       | Some off =>
           take n1 (drop off pd1) = take n1 (drop slave_offset pd) ∧
           (∀ k, ¬ (off ≤ k < off + n1) → pd1 !! k = pd !! k)
       | None => pd1 = pd
       end ∧
       match s_fsoe_master_offset slave with
       | Some off =>
           take n2 (drop master_offset pd2) = take n2 (drop off pd1) ∧
           (∀ k, ¬ (master_offset ≤ k < master_offset + n2) → pd2 !! k = pd1 !! k)
       | None => pd2 = pd1
       end ∧
       (∀ k,
          (∀ off, s_fsoe_slave_offset slave = Some off → ¬ (off ≤ k < off + n1)) →
          (∀ off, s_fsoe_master_offset slave = Some off →
             ¬ (master_offset ≤ k < master_offset + n2)) →
          pd2 !! k = pd !! k)).
Proof.
  intros pd result. subst result. unfold copy_fsoe_data. fold pd. split.
  - by intros ->.
  - intros fsoeConf ->. cbv zeta.
    set (n1 := LCEC_FSOE_SIZE (data_channels fsoeConf) (slave_data_len fsoeConf)).
    set (n2 := LCEC_FSOE_SIZE (data_channels fsoeConf) (master_data_len fsoeConf)).
    intros Hs Hm.
    assert (H1 : ∃ pd1,
      match s_fsoe_slave_offset slave with
      | Some off => memcpy pd off slave_offset n1
      | None => Some pd
      end = Some pd1 ∧ length pd1 = length pd ∧
      match s_fsoe_slave_offset slave with
      | Some off =>
          take n1 (drop off pd1) = take n1 (drop slave_offset pd) ∧
          (∀ k, ¬ (off ≤ k < off + n1) → pd1 !! k = pd !! k)
      | None => pd1 = pd
      end).
    { destruct (s_fsoe_slave_offset slave) as [off|].
      - destruct (memcpy_ok pd off slave_offset n1) as (pd1 & ? & ? & ? & ?); eauto 10.
      - eauto. }
    destruct H1 as (pd1 & -> & Hlen1 & Hpd1). cbn.
    assert (H2 : ∃ pd2,
      match s_fsoe_master_offset slave with
      | Some off => memcpy pd1 master_offset off n2
      | None => Some pd1
      end = Some pd2 ∧ length pd2 = length pd1 ∧
      match s_fsoe_master_offset slave with
      | Some off =>
          take n2 (drop master_offset pd2) = take n2 (drop off pd1) ∧
          (∀ k, ¬ (master_offset ≤ k < master_offset + n2) → pd2 !! k = pd1 !! k)
      | None => pd2 = pd1
      end).
    { destruct (s_fsoe_master_offset slave) as [off|].
      - destruct (memcpy_ok pd1 master_offset off n2) as (pd2 & ? & ? & ? & ?);
          [rewrite Hlen1; auto | eauto 10].
      - eauto. }
    destruct H2 as (pd2 & -> & Hlen2 & Hpd2).
    exists pd1, pd2. repeat split; try done; try congruence.
    intros k Hk1 Hk2.
    transitivity (pd1 !! k).
    + destruct (s_fsoe_master_offset slave) as [off|]; [|by subst].
      destruct Hpd2 as [_ Hframe]. apply Hframe. by eapply Hk2.
    + destruct (s_fsoe_slave_offset slave) as [off|]; [|by subst].
      destruct Hpd1 as [_ Hframe]. apply Hframe. by eapply Hk1.
Qed.

End RelayProps.

(** ** Descriptor builder *)

Section BuilderSteps.

Local Open Scope nat_scope.

Implicit Types (s : lcec_syncs_t) (calls : list builder_call) (c : builder_call).

Lemma builder_run_snoc s calls c :
  builder_run s (calls ++ [c]) = builder_run s calls ≫= fun s' => builder_step s' c.
Proof.
  revert s. induction calls as [|c' calls IH]; intros s; simpl.
  - by destruct (builder_step s c).
  - destruct (builder_step s c'); simpl; [apply IH | done].
Qed.

Lemma count_calls_snoc (f : builder_call → bool) calls c :
  count_calls f (calls ++ [c]) = count_calls f calls + (if f c then 1 else 0).
Proof.
  unfold count_calls. rewrite List.filter_app, length_app. simpl.
  by destruct (f c).
Qed.

Lemma length_pdo_groups calls :
  length (pdo_groups calls) = count_calls is_add_pdo calls.
Proof.
  unfold count_calls.
  induction calls as [|[]]; simpl; auto.
Qed.

(** The sentinel-terminated view finds the first index [0xff]. *)
Lemma sentinel_count_first (tab : list ec_sync_info_t) (n : nat) :
  (∀ i, i < n → ∃ d, tab !! i = Some d ∧ si_index d ≠ 255%Z) →
  (∃ t, tab !! n = Some t ∧ si_index t = 255%Z) →
  sentinel_count tab = Some n.
Proof.
  revert tab. induction n as [|n IH]; intros tab Hbefore (t & Ht & Hff).
  - destruct tab as [|d tab]; [done|]. simpl in *.
    injection Ht as ->. by rewrite decide_True.
  - destruct tab as [|d tab]; [done|]. simpl.
    destruct (Hbefore O) as (d0 & Hd0 & Hne); [lia|].
    injection Hd0 as ->. rewrite decide_False by done.
    rewrite (IH tab); [done| |eauto].
    intros i Hi. apply (Hbefore (S i)). lia.
Qed.

Lemma sync_inv_init max_sync max_pdo max_entry :
  sync_inv max_sync (lcec_syncs_init max_sync max_pdo max_entry).
Proof.
  split; [|split; [|split]]; simpl.
  - by rewrite length_replicate.
  - lia.
  - intros i Hi. lia.
  - lia.
Qed.

Lemma sync_inv_step max_sync s c s' :
  sync_inv max_sync s → builder_step s c = Some s' → sync_inv max_sync s'.
Proof.
  intros (Hlen & Hcount & Hidx & Hend) Hstep.
  destruct c as [dir wd|index|index subindex bit_length]; simpl in Hstep.
  - unfold lcec_syncs_add_sync in Hstep.
    destruct (syncs s !! sync_count s) as [d|] eqn:Hd; [|done]. cbn in Hstep.
    destruct (_ !! S (sync_count s)) as [t|] eqn:Ht in Hstep; [|done]. cbn in Hstep.
    injection Hstep as <-.
    apply lookup_lt_Some in Ht. rewrite length_insert in Ht.
    split; [|split; [|split]]; simpl.
    + by rewrite !length_insert.
    + lia.
    + intros i Hi. destruct (decide (i = sync_count s)) as [->|Hne].
      * eexists. split.
        -- rewrite list_lookup_insert_ne by lia.
           apply list_lookup_insert_eq. lia.
        -- done.
      * rewrite !list_lookup_insert_ne by lia. apply Hidx. lia.
    + intros _. eexists. split.
      * apply list_lookup_insert_eq. rewrite length_insert. lia.
      * done.
  - unfold lcec_syncs_add_pdo_info in Hstep.
    destruct (curr_sync s) as [cs|]; [|done]. cbn in Hstep.
    destruct (syncs s !! cs) as [d|] eqn:Hd; [|done]. cbn in Hstep.
    destruct (pdo_infos s !! pdo_info_count s) as [p|]; [|done]. cbn in Hstep.
    injection Hstep as <-.
    assert (Hkeep : ∀ i d0, syncs s !! i = Some d0 →
              ∃ d1, <[cs:={| si_index := si_index d; si_dir := si_dir d;
                             n_pdos := S (n_pdos d);
                             pdos := match pdos d with
                                     | Some h => Some h
                                     | None => Some (pdo_info_count s)
                                     end;
                             si_watchdog_mode := si_watchdog_mode d |}]> (syncs s) !! i
                    = Some d1 ∧ si_index d1 = si_index d0).
    { intros i d0 Hd0. destruct (decide (i = cs)) as [->|Hne].
      - eexists. split; [apply list_lookup_insert_eq; by eapply lookup_lt_Some|].
        simpl. congruence.
      - rewrite list_lookup_insert_ne by done. eauto. }
    split; [|split; [|split]]; simpl.
    + by rewrite length_insert.
    + done.
    + intros i Hi. destruct (Hidx i Hi) as (d0 & Hd0 & Hi0).
      destruct (Hkeep i d0 Hd0) as (d1 & ? & ?). exists d1. split; congruence.
    + intros Hpos. destruct (Hend Hpos) as (t & Ht & Hff).
      destruct (Hkeep _ t Ht) as (d1 & ? & ?). exists d1. split; congruence.
  - unfold lcec_syncs_add_pdo_entry in Hstep.
    destruct (curr_pdo_info s) as [cp|]; [|done]. cbn in Hstep.
    destruct (pdo_infos s !! cp) as [p|]; [|done]. cbn in Hstep.
    destruct (pdo_entries s !! pdo_entry_count s) as [e|]; [|done]. cbn in Hstep.
    by injection Hstep as <-.
Qed.

Lemma sync_inv_run max_sync calls s s' :
  sync_inv max_sync s → builder_run s calls = Some s' → sync_inv max_sync s'.
Proof.
  revert s. induction calls as [|c calls IH]; intros s Hinv; simpl.
  - by intros [= <-].
  - destruct (builder_step s c) as [s1|] eqn:Hstep; [|done]. simpl.
    apply IH. by eapply sync_inv_step.
Qed.

(** The count of sync managers never goes down. *)
Lemma sync_count_run calls s s' :
  builder_run s calls = Some s' → sync_count s ≤ sync_count s'.
Proof.
  revert s. induction calls as [|c calls IH]; intros s; simpl.
  - by intros [= <-].
  - destruct (builder_step s c) as [s1|] eqn:Hstep; [|done]. simpl.
    intros Hrun. apply IH in Hrun.
    enough (sync_count s ≤ sync_count s1) by lia. clear Hrun.
    destruct c; simpl in Hstep.
    + unfold lcec_syncs_add_sync in Hstep.
      destruct (syncs s !! sync_count s); [|done]. cbn in Hstep.
      destruct (_ !! S (sync_count s)) in Hstep; [|done]. cbn in Hstep.
      injection Hstep as <-. simpl. lia.
    + unfold lcec_syncs_add_pdo_info in Hstep.
      destruct (curr_sync s); [|done]. cbn in Hstep.
      destruct (syncs s !! _); [|done]. cbn in Hstep.
      destruct (pdo_infos s !! _); [|done]. cbn in Hstep.
      injection Hstep as <-. simpl. lia.
    + unfold lcec_syncs_add_pdo_entry in Hstep.
      destruct (curr_pdo_info s); [|done]. cbn in Hstep.
      destruct (pdo_infos s !! _); [|done]. cbn in Hstep.
      destruct (pdo_entries s !! _); [|done]. cbn in Hstep.
      injection Hstep as <-. simpl. lia.
Qed.

(** With [0xff] out of range, the two views of the sync table agree once
    a sync manager was added. *)
Lemma sync_inv_sentinel max_sync s :
  max_sync ≤ 255 → sync_inv max_sync s → 0 < sync_count s →
  sentinel_count (syncs s) = Some (sync_count s).
Proof.
  intros Hmax (Hlen & Hcount & Hidx & Hend) Hpos.
  apply sentinel_count_first; [|auto].
  intros i Hi. destruct (Hidx i Hi) as (d & Hd & Hi').
  exists d. split; [done|]. rewrite Hi', Z.mod_small; lia.
Qed.

End BuilderSteps.

(** C5: in a descriptor set built from a reset one, with room left in the
    sync table (and a capacity that leaves [0xff] out of range), a call to
    [lcec_syncs_add_sync] is defined and increments the count by exactly
    one; the new descriptor sits in the slot numbered by the old count,
    carries the old count as index, the direction and the watchdog mode
    given, and is the current sync manager; the slot after it carries the
    index [0xff]; and the sentinel-terminated view of the table has as
    many descriptors as the count says, then and after any further calls
    to the builder. *)
Theorem lcec_syncs_add_sync_spec (max_sync max_pdo max_entry : nat)
    (calls : list builder_call) (s : lcec_syncs_t)
    (dir : ec_direction_t) (watchdog_mode : ec_watchdog_mode_t) :
  (max_sync ≤ 255)%nat →
  builder_run (lcec_syncs_init max_sync max_pdo max_entry) calls = Some s →
  (sync_count s < max_sync)%nat →
  ∃ s',
    lcec_syncs_add_sync s dir watchdog_mode = Some s' ∧
    sync_count s' = S (sync_count s) ∧
    curr_sync s' = Some (sync_count s) ∧
    (∃ d, syncs s' !! sync_count s = Some d ∧
          si_index d = Z.of_nat (sync_count s) ∧
          si_dir d = dir ∧ si_watchdog_mode d = watchdog_mode) ∧
    (∃ t, syncs s' !! sync_count s' = Some t ∧ si_index t = 255) ∧
    sentinel_count (syncs s') = Some (sync_count s') ∧
    (∀ more s'', builder_run s' more = Some s'' →
       sentinel_count (syncs s'') = Some (sync_count s'')).
Proof.
  intros Hmax Hrun Hroom.
  pose proof (sync_inv_run max_sync calls _ s
                (sync_inv_init max_sync max_pdo max_entry) Hrun) as Hinv.
  assert (Hdef : ∃ s', lcec_syncs_add_sync s dir watchdog_mode = Some s' ∧
            sync_count s' = S (sync_count s) ∧ curr_sync s' = Some (sync_count s) ∧
            ∃ d, syncs s' !! sync_count s = Some d ∧
                 si_index d = Z.of_nat (sync_count s) ∧
                 si_dir d = dir ∧ si_watchdog_mode d = watchdog_mode).
  { destruct Hinv as (Hlen & _ & _ & _).
    unfold lcec_syncs_add_sync.
    destruct (lookup_lt_is_Some_2 (syncs s) (sync_count s)) as [d Hd]; [lia|].
    rewrite Hd. cbn.
    match goal with
    | |- context [?tab !! S (sync_count s)] =>
        destruct (lookup_lt_is_Some_2 tab (S (sync_count s))) as [t Ht];
          [rewrite length_insert; lia|]; rewrite Ht
    end.
    cbn. eexists. split; [done|]. simpl. split; [done|]. split; [done|].
    eexists. split.
    - rewrite list_lookup_insert_ne by lia. apply list_lookup_insert_eq. lia.
    - simpl. split; [|done]. apply Z.mod_small. lia. }
  destruct Hdef as (s' & Hadd & Hcount & Hcurr & Hnew).
  pose proof (sync_inv_step max_sync s (AddSync dir watchdog_mode) s' Hinv Hadd) as Hinv'.
  exists s'. split; [done|]. split; [done|]. split; [done|]. split; [done|].
  split; [|split].
  - destruct Hinv' as (_ & _ & _ & Hend). apply Hend. lia.
  - apply (sync_inv_sentinel max_sync); [done..|lia].
  - intros more s'' Hmore.
    pose proof (sync_count_run more s' s'' Hmore).
    apply (sync_inv_sentinel max_sync); [done| |lia].
    by eapply sync_inv_run.
Qed.

Section BuilderGroups.

Local Open Scope nat_scope.

Implicit Types (calls : list builder_call) (c : builder_call)
  (e : ec_pdo_entry_info_t) (gs : list (Z * list ec_pdo_entry_info_t)).

Lemma pdo_groups_snoc_sync calls dir wd :
  pdo_groups (calls ++ [AddSync dir wd]) = pdo_groups calls.
Proof.
  assert (Hcur : ∀ calls,
    entries_while_current (calls ++ [AddSync dir wd]) = entries_while_current calls).
  { clear calls. intros calls.
    induction calls as [|[]]; simpl; auto. by f_equal. }
  induction calls as [|[]]; simpl; auto. by rewrite Hcur, IHcalls.
Qed.

Lemma pdo_groups_snoc_pdo calls index :
  pdo_groups (calls ++ [AddPdo index]) = pdo_groups calls ++ [(index, [])].
Proof.
  assert (Hcur : ∀ calls,
    entries_while_current (calls ++ [AddPdo index]) = entries_while_current calls).
  { clear calls. intros calls.
    induction calls as [|[]]; simpl; auto. by f_equal. }
  induction calls as [|[]]; simpl; auto. by rewrite Hcur, IHcalls.
Qed.

Lemma entries_while_current_snoc calls index subindex bit_length :
  entries_while_current (calls ++ [AddEntry index subindex bit_length]) =
  match pdo_groups calls with
  | [] => entries_while_current calls ++
          [{| pe_index := index; pe_subindex := subindex; pe_bit_length := bit_length |}]
  | _ => entries_while_current calls
  end.
Proof.
  induction calls as [|[] calls IH]; simpl; auto.
  rewrite IH. by destruct (pdo_groups calls).
Qed.

Lemma pdo_groups_snoc_entry calls index subindex bit_length :
  pdo_groups (calls ++ [AddEntry index subindex bit_length]) =
  snoc_entry {| pe_index := index; pe_subindex := subindex; pe_bit_length := bit_length |}
    (pdo_groups calls).
Proof.
  induction calls as [|[] calls IH]; simpl; auto.
  rewrite IH, entries_while_current_snoc.
  by destruct (pdo_groups calls).
Qed.

Lemma snoc_entry_last e gs i es :
  snoc_entry e (gs ++ [(i, es)]) = gs ++ [(i, es ++ [e])].
Proof.
  induction gs as [|[j js] gs IH]; simpl; [done|].
  rewrite IH. by destruct gs.
Qed.

(** The contract of a sequence, from the contract of all but its last
    call. *)
Lemma nested_snoc (hs hp : bool) calls c :
  nested hs hp (calls ++ [c]) = true →
  nested hs hp calls = true ∧
  match c with
  | AddSync _ _ => True
  | AddPdo _ => hs = true ∨ 0 < count_calls is_add_sync calls
  | AddEntry _ _ _ => hp = true ∨ 0 < count_calls is_add_pdo calls
  end.
Proof.
  unfold count_calls.
  revert hs hp. induction calls as [|c' calls IH]; intros hs hp; simpl.
  - destruct c; simpl; rewrite ?andb_true_r; auto.
  - destruct c'; simpl; rewrite ?andb_true_iff.
    + intros H. destruct (IH _ _ H) as [? Hc]. split; [done|].
      destruct c; auto. right. lia.
    + intros [-> H]. destruct (IH _ _ H) as [? Hc]. split; [done|].
      destruct c; auto. right. lia.
    + intros [-> H]. destruct (IH _ _ H) as [? Hc]. done.
Qed.

(** Under the contract every entry added belongs to a PDO. *)
Lemma pdo_groups_all_entries (hs : bool) calls :
  nested hs false calls = true →
  concat (snd <$> pdo_groups calls) = omap entry_of_call calls.
Proof.
  assert (Hcur : ∀ calls,
    entries_while_current calls ++ concat (snd <$> pdo_groups calls) =
    omap entry_of_call calls).
  { clear. intros calls. induction calls as [|[] calls IH]; simpl; auto.
    f_equal. exact IH. }
  revert hs. induction calls as [|[] calls IH]; intros hs; simpl.
  - done.
  - apply IH.
  - intros _. apply Hcur.
  - done.
Qed.

Lemma length_all_entries calls :
  length (omap entry_of_call calls) = count_calls is_add_entry calls.
Proof.
  unfold count_calls. induction calls as [|[]]; simpl; auto.
Qed.

End BuilderGroups.

Section BuilderInvariant.

Local Open Scope nat_scope.

Variables max_sync max_pdo max_entry : nat.

Implicit Types (s : lcec_syncs_t) (calls : list builder_call).

Lemma builder_inv_init :
  builder_inv max_sync max_pdo max_entry [] (lcec_syncs_init max_sync max_pdo max_entry).
Proof.
  split; simpl; rewrite ?length_replicate; try done.
  intros k _ Hk. exists zero_pdo_info.
  by rewrite lookup_replicate_2.
Qed.

Lemma builder_inv_add_sync calls s dir wd :
  builder_inv max_sync max_pdo max_entry calls s → count_calls is_add_sync calls < max_sync →
  ∃ s', lcec_syncs_add_sync s dir wd = Some s' ∧ builder_inv max_sync max_pdo max_entry (calls ++ [AddSync dir wd]) s'.
Proof.
  intros [Hsl Hpl Hel Hsc Hpc Hec Hcs Hcp Htab Hgr Hfree] Hroom.
  unfold lcec_syncs_add_sync.
  destruct (lookup_lt_is_Some_2 (syncs s) (sync_count s)) as [d Hd]; [lia|].
  rewrite Hd. cbn.
  match goal with
  | |- context [?tab !! S (sync_count s)] =>
      destruct (lookup_lt_is_Some_2 tab (S (sync_count s))) as [t Ht];
        [rewrite length_insert; lia|]; rewrite Ht
  end.
  cbn. eexists. split; [done|].
  split; simpl; rewrite ?pdo_groups_snoc_sync, ?count_calls_snoc, ?length_insert;
    simpl; try done.
  lia.
Qed.

Lemma builder_inv_add_pdo calls s index :
  builder_inv max_sync max_pdo max_entry calls s →
  0 < count_calls is_add_sync calls → count_calls is_add_sync calls ≤ max_sync →
  count_calls is_add_pdo calls < max_pdo →
  ∃ s', lcec_syncs_add_pdo_info s index = Some s' ∧ builder_inv max_sync max_pdo max_entry (calls ++ [AddPdo index]) s'.
Proof.
  intros [Hsl Hpl Hel Hsc Hpc Hec Hcs Hcp Htab Hgr Hfree] Hsync Hcap Hroom.
  rewrite <- length_pdo_groups in Hroom.
  unfold lcec_syncs_add_pdo_info.
  destruct (sync_count s) as [|n] eqn:Hn; [lia|].
  rewrite Hcs. cbn.
  destruct (lookup_lt_is_Some_2 (syncs s) n) as [d Hd]; [lia|].
  rewrite Hd. cbn.
  destruct (Hfree (pdo_info_count s)) as (p & Hp & Hpn & Hpe); [lia..|].
  rewrite Hp. cbn. eexists. split; [done|].
  split; simpl;
    rewrite ?pdo_groups_snoc_pdo, ?count_calls_snoc, ?length_insert, ?length_app,
      ?fmap_app, ?concat_app; simpl; rewrite ?app_nil_r, ?length_app; simpl;
    try done; try lia.
  - intros k i es Hk. apply lookup_app_Some in Hk as [Hk|[Hlen Hk]].
    + pose proof (lookup_lt_Some _ _ _ Hk) as Hlt.
      destruct (Hgr k i es Hk) as (p0 & Hp0 & ? & ? & He0).
      exists p0. rewrite list_lookup_insert_ne by lia.
      rewrite take_app_le by lia. done.
    + destruct (k - length (pdo_groups calls)) as [|?] eqn:Hsub; [|done].
      injection Hk as <- <-.
      assert (k = pdo_info_count s) as -> by lia.
      eexists. split; [apply list_lookup_insert_eq; lia|]. done.
  - intros k Hk Hlt. rewrite list_lookup_insert_ne by lia.
    apply Hfree; lia.
Qed.

Lemma builder_inv_add_entry calls s index subindex bit_length :
  builder_inv max_sync max_pdo max_entry calls s →
  0 < count_calls is_add_pdo calls → count_calls is_add_pdo calls ≤ max_pdo →
  length (concat (snd <$> pdo_groups calls)) < max_entry →
  ∃ s', lcec_syncs_add_pdo_entry s index subindex bit_length = Some s' ∧
        builder_inv max_sync max_pdo max_entry (calls ++ [AddEntry index subindex bit_length]) s'.
Proof.
  intros [Hsl Hpl Hel Hsc Hpc Hec Hcs Hcp Htab Hgr Hfree] Hpdo Hcap Hroom.
  rewrite <- length_pdo_groups in Hpdo, Hcap.
  unfold lcec_syncs_add_pdo_entry.
  pose proof (pdo_groups_snoc_entry calls index subindex bit_length) as Hgroups.
  remember (pdo_groups calls) as G eqn:HG. clear HG.
  destruct G as [|g gs _] using rev_ind; [simpl in Hpdo; lia|].
  destruct g as [i es].
  rewrite snoc_entry_last in Hgroups.
  rewrite length_app in Hpc, Hcap. simpl in Hpc, Hcap.
  assert (Hcount : pdo_info_count s = S (length gs)) by lia.
  rewrite Hcount in Hcp. rewrite Hcp. cbn.
  destruct (Hgr (length gs) i es) as (p & Hp & Hpi & Hpn & Hpe).
  { by rewrite lookup_app_r, Nat.sub_diag by lia. }
  rewrite take_app_length in Hpe.
  rewrite Hp. cbn.
  destruct (lookup_lt_is_Some_2 (pdo_entries s) (pdo_entry_count s)) as [e0 He0]; [lia|].
  rewrite He0. cbn. eexists. split; [done|].
  rewrite <- Hec in Hroom.
  rewrite fmap_app, concat_app in Hec, Htab. simpl in Hec, Htab.
  rewrite app_nil_r in Hec, Htab. rewrite length_app in Hec.
  split; simpl;
    rewrite ?Hgroups, ?count_calls_snoc, ?length_insert, ?length_app,
      ?fmap_app, ?concat_app; simpl; rewrite ?app_nil_r, ?length_app; simpl;
    try done; try lia.
  - by rewrite Hcount.
  - erewrite take_S_r; [|apply list_lookup_insert_eq; lia].
    rewrite take_insert_ge by lia. rewrite Htab. by rewrite !app_assoc.
  - intros k j js Hk. apply lookup_app_Some in Hk as [Hk|[Hlen Hk]].
    + pose proof (lookup_lt_Some _ _ _ Hk) as Hlt.
      destruct (Hgr k j js) as (p0 & Hp0 & ? & ? & Hpe0).
      { by apply lookup_app_l_Some. }
      exists p0. rewrite list_lookup_insert_ne by lia.
      rewrite take_app_le in Hpe0 by lia. rewrite take_app_le by lia. done.
    + destruct (k - length gs) as [|?] eqn:Hsub; [|done].
      injection Hk as <- <-.
      assert (k = length gs) as -> by lia.
      eexists. split; [apply list_lookup_insert_eq; by eapply lookup_lt_Some|].
      simpl. rewrite take_app_length, length_app. simpl.
      split; [done|]. split; [lia|].
      destruct es as [|e1 es]; simpl in *.
      * rewrite Hpe. f_equal. lia.
      * by rewrite Hpe.
  - intros k Hk Hlt. rewrite list_lookup_insert_ne by lia.
    apply Hfree; lia.
Qed.

(** A sequence that respects the contract and the capacities runs to a
    descriptor set that satisfies the invariant. *)
Lemma builder_run_inv calls :
  nested false false calls = true →
  count_calls is_add_sync calls ≤ max_sync →
  count_calls is_add_pdo calls ≤ max_pdo →
  count_calls is_add_entry calls ≤ max_entry →
  ∃ s, builder_run (lcec_syncs_init max_sync max_pdo max_entry) calls = Some s ∧
       builder_inv max_sync max_pdo max_entry calls s.
Proof.
  induction calls as [|c calls IH] using rev_ind; intros Hnest Hs Hp He.
  - exists (lcec_syncs_init max_sync max_pdo max_entry).
    split; [done | apply builder_inv_init].
  - apply nested_snoc in Hnest as [Hnest Hc].
    rewrite count_calls_snoc in Hs, Hp, He.
    destruct IH as (s & Hrun & Hinv); [done | lia..|].
    rewrite builder_run_snoc, Hrun. simpl.
    destruct c as [dir wd|index|index subindex bit_length]; simpl in *.
    + apply builder_inv_add_sync; [done | lia].
    + destruct Hc as [?|Hc]; [done|].
      apply builder_inv_add_pdo; [done | lia..].
    + destruct Hc as [?|Hc]; [done|].
      apply builder_inv_add_entry; [done | lia..|].
      rewrite (pdo_groups_all_entries false), length_all_entries by done. lia.
Qed.

Lemma builder_inv_entry_run calls s k i es p :
  builder_inv max_sync max_pdo max_entry calls s → pdo_groups calls !! k = Some (i, es) →
  pdo_infos s !! k = Some p → entry_run s p = es.
Proof.
  intros [Hsl Hpl Hel Hsc Hpc Hec Hcs Hcp Htab Hgr Hfree] Hk Hp.
  destruct (Hgr k i es Hk) as (p' & Hp' & _ & Hn & Hhead).
  assert (p' = p) as -> by congruence.
  unfold entry_run. rewrite Hhead, Hn.
  destruct es as [|e es]; [done|].
  set (A := concat (snd <$> take k (pdo_groups calls))).
  set (R := concat (snd <$> drop (S k) (pdo_groups calls))).
  assert (Hflat : take (pdo_entry_count s) (pdo_entries s) = (A ++ e :: es) ++ R).
  { rewrite Htab. rewrite <- (take_drop_middle _ _ _ Hk) at 1.
    rewrite fmap_app, concat_app. simpl. by rewrite <- app_assoc. }
  assert (Hle : length A + length (e :: es) ≤ pdo_entry_count s).
  { apply (f_equal length) in Hflat.
    rewrite length_take, !length_app in Hflat. lia. }
  rewrite take_drop_commute.
  replace (take (length A + length (e :: es)) (pdo_entries s))
    with (take (length A + length (e :: es))
            (take (pdo_entry_count s) (pdo_entries s)))
    by (rewrite take_take; f_equal; lia).
  rewrite Hflat, take_app_length' by (rewrite length_app; lia).
  by rewrite drop_app_length.
Qed.

End BuilderInvariant.

(** C3: a sequence of builder calls that respects the nesting contract and
    the capacities, run on a reset descriptor set, is defined; the entry
    count of the result is the number of [AddEntry] calls, the used part of
    the entry table holds the entries in the order they were added, the
    PDO count is the number of [AddPdo] calls, and the [k]-th PDO of the
    table carries the index of the [k]-th [AddPdo] call and a run (head
    pointer and [n_entries]) that is exactly the entries added while it
    was current, in order. *)
Theorem builder_entry_runs (max_sync max_pdo max_entry : nat) (calls : list builder_call) :
  nested false false calls = true →
  (count_calls is_add_sync calls ≤ max_sync)%nat →
  (count_calls is_add_pdo calls ≤ max_pdo)%nat →
  (count_calls is_add_entry calls ≤ max_entry)%nat →
  ∃ s,
    builder_run (lcec_syncs_init max_sync max_pdo max_entry) calls = Some s ∧
    pdo_entry_count s = count_calls is_add_entry calls ∧
    take (pdo_entry_count s) (pdo_entries s) = omap entry_of_call calls ∧
    pdo_info_count s = count_calls is_add_pdo calls ∧
    length (pdo_groups calls) = count_calls is_add_pdo calls ∧
    ∀ k index es,
      pdo_groups calls !! k = Some (index, es) →
      ∃ p, pdo_infos s !! k = Some p ∧ pi_index p = index ∧
           n_entries p = length es ∧ entry_run s p = es.
Proof.
  intros Hnest Hs Hp He.
  destruct (builder_run_inv max_sync max_pdo max_entry calls Hnest Hs Hp He)
    as (s & Hrun & Hinv).
  exists s. split; [done|].
  pose proof (pdo_groups_all_entries false calls Hnest) as Hall.
  split; [|split; [|split; [|split]]].
  - rewrite (inv_entry_count _ _ _ _ _ Hinv), Hall. apply length_all_entries.
  - by rewrite (inv_table _ _ _ _ _ Hinv).
  - rewrite (inv_pdo_count _ _ _ _ _ Hinv). apply length_pdo_groups.
  - apply length_pdo_groups.
  - intros k index es Hk.
    destruct (inv_groups _ _ _ _ _ Hinv k index es Hk) as (p & Hp' & Hi & Hn & _).
    exists p. repeat split; try done.
    by eapply builder_inv_entry_run.
Qed.

(** * The code on concrete inputs *)

Example slave_lookup_duplicates :
  lcec_slave_by_index example_master 1 = Some (example_slave 1 "first") ∧
  lcec_slave_by_index example_master 0 = Some (example_slave 0 "coupler") ∧
  lcec_slave_by_index example_master 2 = None.
Proof. done. Qed.

Example modparam_lookup :
  lcec_modparam_get example_fsoe_slave 2 = Some (Some [Init.Byte.x02]) ∧
  lcec_modparam_get example_fsoe_slave 7 = Some None ∧
  lcec_modparam_get example_fsoe_slave (-1) = Some None ∧
  lcec_modparam_get (example_slave 0 "coupler") 2 = Some None.
Proof. done. Qed.

Example end_to_end_descriptors :
  ∃ s, builder_run (lcec_syncs_init 4 8 32) example_calls = Some s ∧
       sync_count s = 1%nat ∧ pdo_info_count s = 1%nat ∧ pdo_entry_count s = 2%nat ∧
       pdo_infos s !! 0%nat =
         Some {| pi_index := 0x1a00; n_entries := 2; entries := Some 0%nat |} ∧
       (si_index <$> syncs s) = [0; 255; 0; 0; 0] ∧
       sentinel_count (syncs s) = Some 1%nat.
Proof. eexists. split; [reflexivity|]. done. Qed.

Example sentinel_needs_a_sync_manager :
  sentinel_count (syncs (lcec_syncs_init 4 8 32)) = None.
Proof. done. Qed.

Example relay_copies :
  copy_fsoe_data example_fsoe_size example_master example_fsoe_slave 12 18 =
    Some (byte.of_Z <$> [11; 12; 13; 14; 15; 16; 21; 22; 23; 24; 25; 26;
                         11; 12; 13; 14; 15; 16; 21; 22; 23; 24; 25; 26]) ∧
  copy_fsoe_data example_fsoe_size example_master (example_slave 0 "coupler") 12 18 =
    Some (process_data example_master) ∧
  copy_fsoe_data example_fsoe_size example_master example_fsoe_slave 12 20 = None.
Proof. done. Qed.

Example write_refused :
  let o := run refusing_transport
             (lcec_write_sdo16 example_master (example_slave 1 "in") 0x8000 1 0x1234) tt in
  ret o = -1 ∧ List.filter is_config_sdo (trace o) = [] ∧ length (trace o) = 2%nat.
Proof. done. Qed.

Example write_not_persisted :
  let o := run forgetful_transport
             (lcec_write_sdo16_modparam example_master (example_slave 1 "in")
                0x8000 1 0x1234 "maxCurrent") tt in
  ret o = -1 ∧ length (List.filter is_called (trace o)) = 2%nat ∧
  List.filter (fun e => negb (is_called e)) (trace o) =
    [Printed (SlaveSdoConfigFailed "0" "in" 0x8000 1);
     Printed (ModparamSdoRejected "0" "in" "maxCurrent" 0x8000 1 0x1234)].
Proof. done. Qed.

Example read_wrong_size :
  (ret (run forgetful_transport
          (lcec_read_sdo example_master (example_slave 1 "in") 0x8000 1 [] 2) tt)).1 = -1 ∧
  (ret (run forgetful_transport
          (lcec_read_idn example_master (example_slave 1 "in") 0 32 [] 2) tt)).1 = -1.
Proof. done. Qed.

Example wire_order :
  EC_WRITE_U16 0x1234 = [Init.Byte.x34; Init.Byte.x12] ∧
  EC_WRITE_U32 0x12345678 = [Init.Byte.x78; Init.Byte.x56; Init.Byte.x34; Init.Byte.x12] ∧
  EC_READ_U32 (EC_WRITE_U32 0x12345678) = Some 0x12345678.
Proof. done. Qed.

(** * Instances of the theorems *)

Lemma lcec_slave_by_index_distinct_witness :
  NoDup (s_index <$> first_slave example_master_distinct) ∧
  (∀ s, s ∈ first_slave example_master_distinct →
     lcec_slave_by_index example_master_distinct (s_index s) = Some s ∧
     ∀ s', s' ∈ first_slave example_master_distinct → s_index s' = s_index s → s' = s) ∧
  (∀ index, index ∉ s_index <$> first_slave example_master_distinct →
     lcec_slave_by_index example_master_distinct index = None) ∧
  (∀ index s, lcec_slave_by_index example_master_distinct index = Some s →
     s ∈ first_slave example_master_distinct ∧ s_index s = index).
Proof.
  assert (Hnd : NoDup (s_index <$> first_slave example_master_distinct)).
  { apply (bool_decide_unpack _). vm_compute. exact I. }
  split; [exact Hnd|].
  exact (lcec_slave_by_index_distinct example_master_distinct Hnd).
Defined.

Lemma lcec_slave_by_index_earliest_witness :
  first_slave example_master =
    [example_slave 0 "coupler"] ++ example_slave 1 "first" :: [example_slave 1 "second"] ∧
  Forall (fun s' => s_index s' ≠ s_index (example_slave 1 "first"))
    [example_slave 0 "coupler"] ∧
  lcec_slave_by_index example_master (s_index (example_slave 1 "first")) =
    Some (example_slave 1 "first").
Proof.
  assert (Hchain : first_slave example_master =
    [example_slave 0 "coupler"] ++ example_slave 1 "first" :: [example_slave 1 "second"])
    by reflexivity.
  assert (Hbefore : Forall (fun s' => s_index s' ≠ s_index (example_slave 1 "first"))
                      [example_slave 0 "coupler"]).
  { repeat constructor. simpl. lia. }
  split; [exact Hchain|]. split; [exact Hbefore|].
  exact (lcec_slave_by_index_earliest example_master _ _ _ Hchain Hbefore).
Defined.

Lemma builder_entry_runs_witness :
  nested false false example_calls = true ∧
  (count_calls is_add_sync example_calls ≤ 4)%nat ∧
  (count_calls is_add_pdo example_calls ≤ 8)%nat ∧
  (count_calls is_add_entry example_calls ≤ 32)%nat ∧
  ∃ s,
    builder_run (lcec_syncs_init 4 8 32) example_calls = Some s ∧
    pdo_entry_count s = count_calls is_add_entry example_calls ∧
    take (pdo_entry_count s) (pdo_entries s) = omap entry_of_call example_calls ∧
    pdo_info_count s = count_calls is_add_pdo example_calls ∧
    length (pdo_groups example_calls) = count_calls is_add_pdo example_calls ∧
    ∀ k index es,
      pdo_groups example_calls !! k = Some (index, es) →
      ∃ p, pdo_infos s !! k = Some p ∧ pi_index p = index ∧
           n_entries p = length es ∧ entry_run s p = es.
Proof.
  assert (Hnest : nested false false example_calls = true) by reflexivity.
  assert (Hs : (count_calls is_add_sync example_calls ≤ 4)%nat) by (vm_compute; lia).
  assert (Hp : (count_calls is_add_pdo example_calls ≤ 8)%nat) by (vm_compute; lia).
  assert (He : (count_calls is_add_entry example_calls ≤ 32)%nat) by (vm_compute; lia).
  split; [exact Hnest|]. split; [exact Hs|]. split; [exact Hp|]. split; [exact He|].
  exact (builder_entry_runs 4 8 32 example_calls Hnest Hs Hp He).
Defined.

Lemma lcec_syncs_add_sync_spec_witness :
  (4 ≤ 255)%nat ∧
  ∃ s,
    builder_run (lcec_syncs_init 4 8 32) example_calls = Some s ∧
    (sync_count s < 4)%nat ∧
    ∃ s',
      lcec_syncs_add_sync s EC_DIR_OUTPUT EC_WD_ENABLE = Some s' ∧
      sync_count s' = S (sync_count s) ∧
      curr_sync s' = Some (sync_count s) ∧
      (∃ d, syncs s' !! sync_count s = Some d ∧
            si_index d = Z.of_nat (sync_count s) ∧
            si_dir d = EC_DIR_OUTPUT ∧ si_watchdog_mode d = EC_WD_ENABLE) ∧
      (∃ t, syncs s' !! sync_count s' = Some t ∧ si_index t = 255) ∧
      sentinel_count (syncs s') = Some (sync_count s') ∧
      (∀ more s'', builder_run s' more = Some s'' →
         sentinel_count (syncs s'') = Some (sync_count s'')).
Proof.
  assert (Hmax : (4 ≤ 255)%nat) by lia.
  split; [exact Hmax|].
  eexists. split; [reflexivity|].
  assert (Hroom : (1 < 4)%nat) by lia.
  split; [exact Hroom|].
  exact (lcec_syncs_add_sync_spec 4 8 32 example_calls _ EC_DIR_OUTPUT EC_WD_ENABLE
           Hmax eq_refl Hroom).
Defined.

Lemma lcec_write_sdo_two_phase_witness :
  let master := example_master in
  let slave := example_slave 1 "in" in
  let value := EC_WRITE_U16 0x1234 in
  let dl_call := ecrt_master_sdo_download (m_master master) (slave_position slave)
                   0x8000 1 value 2 in
  let o := run refusing_transport (lcec_write_sdo master slave 0x8000 1 value 2) tt in
  dl_err (refusing_transport _ dl_call tt).1 ≠ 0 ∧
  ret o = -1 ∧ transport o = tt ∧
  List.filter is_called (trace o) = [Called dl_call (refusing_transport _ dl_call tt).1] ∧
  Forall (fun e => is_config_sdo e = false) (trace o).
Proof.
  intros master slave value dl_call o.
  assert (Hdl : dl_err (refusing_transport _ dl_call tt).1 ≠ 0) by (simpl; lia).
  split; [exact Hdl|].
  exact (proj1 (lcec_write_sdo_two_phase refusing_transport master slave
                  0x8000 1 value 2 tt) Hdl).
Defined.

Lemma copy_fsoe_data_spec_witness :
  let pd := process_data example_master in
  copy_ok (length pd) 0 12 6 ∧ copy_ok (length pd) 18 6 6 ∧
  ∃ pd1 pd2,
    copy_fsoe_data example_fsoe_size example_master example_fsoe_slave 12 18 = Some pd2 ∧
    length pd1 = length pd ∧ length pd2 = length pd ∧
    (take 6 (drop 0 pd1) = take 6 (drop 12 pd) ∧
     (∀ k, ¬ (0 ≤ k < 0 + 6)%nat → pd1 !! k = pd !! k)) ∧
    (take 6 (drop 18 pd2) = take 6 (drop 6 pd1) ∧
     (∀ k, ¬ (18 ≤ k < 18 + 6)%nat → pd2 !! k = pd1 !! k)) ∧
    (∀ k,
       (∀ off, Some 0%nat = Some off → ¬ (off ≤ k < off + 6)%nat) →
       (∀ off, Some 6%nat = Some off → ¬ (18 ≤ k < 18 + 6)%nat) →
       pd2 !! k = pd !! k).
Proof.
  intros pd.
  assert (H1 : copy_ok (length pd) 0 12 6) by (vm_compute; lia).
  assert (H2 : copy_ok (length pd) 18 6 6) by (vm_compute; lia).
  split; [exact H1|]. split; [exact H2|].
  refine (proj2 (copy_fsoe_data_spec example_fsoe_size example_master
                   example_fsoe_slave 12 18) _ eq_refl _ _).
  - intros off [= <-]. exact H1.
  - intros off [= <-]. exact H2.
Defined.

Lemma lcec_write_sdo_fixed_width_round_trip_witness :
  let master := example_master in
  let slave := example_slave 1 "in" in
  let o := run storing_transport (lcec_write_sdo16 master slave 0x8000 1 0x1234) ∅ in
  let o' := run storing_transport (lcec_read_sdo master slave 0x8000 1 [] 2) (transport o) in
  0 ≤ 0x1234 < 2 ^ 16 ∧ ret o = 0 ∧ (ret o').1 = 0 ∧ EC_READ_U16 (ret o').2 = Some 0x1234.
Proof.
  intros master slave o o'.
  assert (Hrange : 0 ≤ 0x1234 < 2 ^ 16) by lia.
  split; [exact Hrange|].
  pose proof (lcec_write_sdo_fixed_width_round_trip master slave 0x8000 1 0x1234 [] ∅)
    as (_ & (_ & _ & _ & Hret & Hread & _ & Hvalue) & _).
  split; [exact Hret|]. split; [exact Hread|]. exact (Hvalue Hrange).
Defined.

Lemma lcec_modparam_get_spec_witness :
  let pre := [ {| mp_id := 1; mp_value := [Init.Byte.x01] |};
               {| mp_id := 2; mp_value := [Init.Byte.x02] |} ] in
  let e := {| mp_id := -1; mp_value := [] |} in
  let post := [ {| mp_id := 7; mp_value := [Init.Byte.x07] |} ] in
  s_modparams example_fsoe_slave = Some (pre ++ e :: post) ∧
  Forall (fun e' => mp_id e' >= 0) pre ∧ mp_id e < 0 ∧
  lcec_modparam_get example_fsoe_slave 7 = Some (first_with_id 7 pre) ∧
  first_with_id 7 pre = None.
Proof.
  intros pre e post.
  assert (Hmp : s_modparams example_fsoe_slave = Some (pre ++ e :: post)) by reflexivity.
  assert (Hpre : Forall (fun e' => mp_id e' >= 0) pre)
    by (repeat constructor; simpl; lia).
  assert (He : mp_id e < 0) by (simpl; lia).
  split; [exact Hmp|]. split; [exact Hpre|]. split; [exact He|].
  split; [|reflexivity].
  exact (proj2 (lcec_modparam_get_spec example_fsoe_slave 7) pre e post Hmp Hpre He).
Defined.

(** * Further properties *)

(** ** Slave registry *)

Lemma slave_scan_none (slaves : list lcec_slave) (index : Z) :
  slave_scan slaves index = None ↔ index ∉ s_index <$> slaves.
Proof.
  split; [|apply slave_scan_absent].
  induction slaves as [|s next IH]; simpl.
  - intros _. apply not_elem_of_nil.
  - destruct (decide (s_index s = index)); [done|].
    intros H. apply not_elem_of_cons. auto.
Qed.

Lemma slave_scan_split (slaves : list lcec_slave) (index : Z) (s : lcec_slave) :
  slave_scan slaves index = Some s →
  ∃ l1 l2, slaves = l1 ++ s :: l2 ∧ s_index s = index ∧
           Forall (fun s' => s_index s' ≠ index) l1.
Proof.
  induction slaves as [|s' next IH]; simpl; [done|].
  destruct (decide (s_index s' = index)) as [Heq|Hne].
  - intros [= ->]. by exists [], next.
  - intros H. destruct (IH H) as (l1 & l2 & -> & ? & ?).
    exists (s' :: l1), l2. repeat split; [done|]. by constructor.
Qed.

(** X1: whether or not the indices are distinct, the lookup returns [NULL]
    exactly when no slave of the chain carries the index, and returns [s]
    exactly when [s] carries the index and no slave before [s] in the chain
    does. *)
Theorem lcec_slave_by_index_char (master : lcec_master) (index : Z) :
  (lcec_slave_by_index master index = None ↔
     index ∉ s_index <$> first_slave master) ∧
  (∀ s, lcec_slave_by_index master index = Some s ↔
     ∃ l1 l2, first_slave master = l1 ++ s :: l2 ∧ s_index s = index ∧
              Forall (fun s' => s_index s' ≠ index) l1).
Proof.
  unfold lcec_slave_by_index. split; [apply slave_scan_none|].
  intros s. split; [apply slave_scan_split|].
  intros (l1 & l2 & -> & <- & Hbefore). by apply slave_scan_first.
Qed.

(** ** Module parameters *)

Lemma modparam_scan_found (p : list lcec_slave_modparam_t) (id : Z) (v : list byte) :
  modparam_scan p id = Some (Some v) ↔
  ∃ pre e post, p = pre ++ e :: post ∧
    Forall (fun e' => mp_id e' >= 0 ∧ mp_id e' ≠ id) pre ∧
    mp_id e = id ∧ 0 ≤ id ∧ mp_value e = v.
Proof.
  split.
  - induction p as [|e' p IH]; simpl; [done|].
    destruct (decide (mp_id e' >= 0)); [|done].
    destruct (decide (mp_id e' = id)) as [Heq|Hne].
    + intros [= <-]. exists [], e', p. repeat split; try done. lia.
    + intros H. destruct (IH H) as (pre & e & post & -> & ? & ? & ? & ?).
      exists (e' :: pre), e, post. repeat split; try done. by constructor.
  - intros (pre & e & post & -> & Hpre & He & Hid & <-).
    induction Hpre as [|e' pre [Hge Hne] _ IH]; simpl.
    + rewrite decide_True by lia. by rewrite decide_True.
    + rewrite decide_True by done. by rewrite decide_False.
Qed.

Lemma modparam_scan_null (p : list lcec_slave_modparam_t) (id : Z) :
  modparam_scan p id = Some None ↔
  ∃ pre e post, p = pre ++ e :: post ∧
    Forall (fun e' => mp_id e' >= 0 ∧ mp_id e' ≠ id) pre ∧ mp_id e < 0.
Proof.
  split.
  - induction p as [|e' p IH]; simpl; [done|].
    destruct (decide (mp_id e' >= 0)).
    + destruct (decide (mp_id e' = id)) as [Heq|Hne]; [done|].
      intros H. destruct (IH H) as (pre & e & post & -> & ? & ?).
      exists (e' :: pre), e, post. repeat split; try done. by constructor.
    + intros _. exists [], e', p. repeat split; [done|lia].
  - intros (pre & e & post & -> & Hpre & He).
    induction Hpre as [|e' pre [Hge Hne] _ IH]; simpl.
    + by rewrite decide_False by lia.
    + rewrite decide_True by done. by rewrite decide_False.
Qed.

Lemma modparam_scan_undefined (p : list lcec_slave_modparam_t) (id : Z) :
  modparam_scan p id = None ↔ Forall (fun e => mp_id e >= 0 ∧ mp_id e ≠ id) p.
Proof.
  induction p as [|e p IH]; simpl.
  - split; [by constructor | done].
  - destruct (decide (mp_id e >= 0)).
    + destruct (decide (mp_id e = id)).
      * split; [done|]. intros H. apply Forall_cons in H as [[_ ?] _]. done.
      * rewrite IH. split; [by constructor|]. intros H. by apply Forall_cons in H as [_ ?].
    + split; [done|]. intros H. apply Forall_cons in H as [[? _] _]. done.
Qed.

(** X2: [lcec_modparam_get] returns a pointer to [v] exactly when the array
    has an element with the requested id and the value [v] such that every
    element before it has a non-negative id other than the requested one;
    this requires a non-negative id, so a negative id is never found. *)
Theorem lcec_modparam_get_found (slave : lcec_slave) (id : Z) (v : list byte) :
  (lcec_modparam_get slave id = Some (Some v) ↔
     ∃ pre e post, s_modparams slave = Some (pre ++ e :: post) ∧
       Forall (fun e' => mp_id e' >= 0 ∧ mp_id e' ≠ id) pre ∧
       mp_id e = id ∧ 0 ≤ id ∧ mp_value e = v) ∧
  (id < 0 → lcec_modparam_get slave id ≠ Some (Some v)).
Proof.
  assert (Hiff : lcec_modparam_get slave id = Some (Some v) ↔
     ∃ pre e post, s_modparams slave = Some (pre ++ e :: post) ∧
       Forall (fun e' => mp_id e' >= 0 ∧ mp_id e' ≠ id) pre ∧
       mp_id e = id ∧ 0 ≤ id ∧ mp_value e = v).
  { unfold lcec_modparam_get. destruct (s_modparams slave) as [p|].
    - rewrite modparam_scan_found. split.
      + intros (pre & e & post & -> & ?). eauto 10.
      + intros (pre & e & post & [= ->] & ?). eauto 10.
    - split; [done|]. by intros (? & ? & ? & ? & _). }
  split; [exact Hiff|].
  intros Hneg H. apply Hiff in H as (? & ? & ? & _ & _ & _ & ? & _). lia.
Qed.

(** X3: [lcec_modparam_get] returns [NULL] exactly when there is no array,
    or when the array reaches an element with a negative id before any
    element with the requested id; it reads past the end of the array
    exactly when every element of the array has a non-negative id other
    than the requested one. *)
Theorem lcec_modparam_get_null_or_past_end (slave : lcec_slave) (id : Z) :
  (lcec_modparam_get slave id = Some None ↔
     s_modparams slave = None ∨
     ∃ pre e post, s_modparams slave = Some (pre ++ e :: post) ∧
       Forall (fun e' => mp_id e' >= 0 ∧ mp_id e' ≠ id) pre ∧ mp_id e < 0) ∧
  (lcec_modparam_get slave id = None ↔
     ∃ p, s_modparams slave = Some p ∧
          Forall (fun e => mp_id e >= 0 ∧ mp_id e ≠ id) p).
Proof.
  unfold lcec_modparam_get. destruct (s_modparams slave) as [p|]; split.
  - rewrite modparam_scan_null. split.
    + intros (pre & e & post & -> & ?). right. eauto 10.
    + intros [?|(pre & e & post & [= ->] & ?)]; [done | eauto 10].
  - rewrite modparam_scan_undefined. split.
    + eauto.
    + by intros (? & [= ->] & ?).
  - split; [auto | done].
  - split; [done|]. by intros (? & ? & _).
Qed.

(** ** Configuration channel *)

(** X4: a read makes exactly one call into the EtherCAT master, the upload
    (or the drive parameter read) with the position, address, buffer and
    size it was given; it neither retries nor writes, and leaves the
    transport as that one call left it.  It prints one message when it
    fails and none when it succeeds. *)
Theorem lcec_read_single_call {T : Type} (h : handler T) (t : T)
    (master : lcec_master) (slave : lcec_slave)
    (index subindex drive_no idn : Z) (target : list byte) (size : N) :
  let up_call := ecrt_master_sdo_upload (m_master master) (slave_position slave)
                   index subindex target size in
  let rd_call := ecrt_master_read_idn (m_master master) (slave_position slave)
                   drive_no idn target size in
  let single (R : Type) (c : ecrt_call R) (o : outcome T (Z * list byte)) :=
    transport o = (h _ c t).2 ∧
    List.filter is_called (trace o) = [Called c (h _ c t).1] ∧
    length (List.filter (fun e => negb (is_called e)) (trace o)) =
      (if decide ((ret o).1 = 0) then 0%nat else 1%nat) in
  single _ up_call (run h (lcec_read_sdo master slave index subindex target size) t) ∧
  single _ rd_call (run h (lcec_read_idn master slave drive_no idn target size) t).
Proof.
  cbv zeta. unfold lcec_read_sdo, lcec_read_idn. cbn.
  destruct (h _ (ecrt_master_sdo_upload _ _ _ _ _ _) t) as [up t1].
  destruct (h _ (ecrt_master_read_idn _ _ _ _ _ _) t) as [rd t2]. cbn.
  split.
  - destruct (decide (up_err up ≠ 0));
      [|destruct (decide (up_result_size up ≠ size))]; done.
  - destruct (decide (idn_err rd ≠ 0));
      [|destruct (decide (idn_result_size rd ≠ size))]; done.
Qed.

(** X5: against the storing transport, an object written through
    [lcec_write_sdo] and read back through [lcec_read_sdo] with any other
    size, smaller or larger, is a failed read. *)
Theorem lcec_read_back_other_size (master : lcec_master) (slave : lcec_slave)
    (index subindex : Z) (data target : list byte) (size : N)
    (od : gmap (Z * Z * Z) (list byte)) :
  size ≠ N.of_nat (length data) →
  let o := run storing_transport
             (lcec_write_sdo master slave index subindex data (N.of_nat (length data))) od in
  ret o = 0 ∧
  (ret (run storing_transport
          (lcec_read_sdo master slave index subindex target size) (transport o))).1 = -1.
Proof.
  intros Hsize o.
  destruct (write_then_read master slave index subindex data target od)
    as (Hret & _ & Hlook & _).
  fold o in Hret, Hlook. split; [done|].
  unfold lcec_read_sdo.
  change (run storing_transport (call ?c ≫= ?f) ?st)
    with (let '(x, t') := storing_transport _ c st in
          let o := run storing_transport (f x) t' in
          {| ret := ret o; transport := transport o; trace := Called c x :: trace o |}).
  change (storing_transport _ (ecrt_master_sdo_upload ?m ?p ?i ?s ?tg ?n) ?st)
    with (match st !! (p, i, s) with
          | Some stored =>
              if decide (length stored ≤ N.to_nat n)%nat
              then ({| up_err := 0; up_target := stored ++ drop (length stored) tg;
                       up_result_size := N.of_nat (length stored); up_abort_code := 0 |}, st)
              else ({| up_err := -75; up_target := tg; up_result_size := 0;
                       up_abort_code := 0 |}, st)
          | None =>
              ({| up_err := -5; up_target := tg; up_result_size := 0;
                  up_abort_code := 0x06020000 |}, st)
          end).
  rewrite Hlook.
  destruct (decide (length data ≤ N.to_nat size)%nat); cbn [up_err up_result_size].
  - rewrite decide_False by (intros H; by apply H).
    by rewrite decide_True.
  - by rewrite decide_True.
Qed.

(** X6: the three fields with which the messages of [lcec_read_idn] show a
    16-bit parameter number determine it: the number is put together again
    from ['P'] or ['S'], the parameter set and the data block number, so two
    different numbers are never shown alike. *)
Theorem idn_fields_lossless (idn : Z) :
  0 ≤ idn < 2 ^ 16 →
  idn_of_fields (idn_fields idn) = idn ∧
  (∀ idn', 0 ≤ idn' < 2 ^ 16 → idn_fields idn' = idn_fields idn → idn' = idn).
Proof.
  assert (Hback : ∀ idn, 0 ≤ idn < 2 ^ 16 → idn_of_fields (idn_fields idn) = idn).
  { clear idn. intros idn H. unfold idn_of_fields, idn_fields.
    change 0x8000 with (2 ^ 15).
    assert (Hland : Z.land idn (2 ^ 15) = if Z.testbit idn 15 then 2 ^ 15 else 0).
    { apply Z.bits_inj'. intros m Hm.
      rewrite Z.land_spec, Z.pow2_bits_eqb by lia.
      destruct (Z.eqb_spec 15 m) as [<-|Hne].
      - destruct (Z.testbit idn 15);
          [by rewrite Z.pow2_bits_true | by rewrite Z.bits_0].
      - rewrite andb_false_r.
        destruct (Z.testbit idn 15);
          [by rewrite Z.pow2_bits_false | by rewrite Z.bits_0]. }
    rewrite Hland.
    assert (Htop : ∀ n, 16 ≤ n → Z.testbit idn n = false).
    { intros n Hn. destruct (decide (idn = 0)) as [->|]; [apply Z.bits_0|].
      apply Z.bits_above_log2; [lia|].
      assert (Z.log2 idn < 16) by (apply Z.log2_lt_pow2; lia). lia. }
    change 7 with (Z.ones 3). change 0xfff with (Z.ones 12).
    replace (negb ((if Z.testbit idn 15 then 2 ^ 15 else 0) =? 0))
      with (Z.testbit idn 15) by (by destruct (Z.testbit idn 15)).
    apply Z.bits_inj'. intros n Hn. rewrite !Z.lor_spec.
    assert (Hnum : Z.testbit (Z.land idn (Z.ones 12)) n = Z.testbit idn n && (n <? 12)).
    { rewrite Z.land_spec, Z.testbit_ones by lia.
      by replace (0 <=? n) with true by lia. }
    assert (Hset : Z.testbit (Z.shiftl (Z.land (Z.shiftr idn 12) (Z.ones 3)) 12) n =
                   Z.testbit idn n && ((12 <=? n) && (n <? 15))).
    { rewrite Z.shiftl_spec by lia. destruct (decide (n < 12)).
      - rewrite Z.testbit_neg_r by lia.
        replace (12 <=? n) with false by lia. by rewrite andb_false_r.
      - rewrite Z.land_spec, Z.shiftr_spec, Z.testbit_ones by lia.
        replace (n - 12 + 12) with n by lia. f_equal. lia. }
    assert (Hp : Z.testbit (if Z.testbit idn 15 then 2 ^ 15 else 0) n =
                 Z.testbit idn 15 && (n =? 15)).
    { destruct (Z.testbit idn 15); [|by rewrite Z.bits_0].
      rewrite Z.pow2_bits_eqb by lia. apply Z.eqb_sym. }
    rewrite Hnum, Hset, Hp.
    assert (Hcase : n < 12 ∨ 12 ≤ n < 15 ∨ n = 15 ∨ 16 ≤ n) by lia.
    destruct Hcase as [Hlo|[Hmid|[->|Hhi]]].
    - replace (n <? 12) with true by lia. replace (12 <=? n) with false by lia.
      replace (n =? 15) with false by lia.
      simpl. by rewrite !andb_false_r, andb_true_r.
    - replace (n <? 12) with false by lia. replace (12 <=? n) with true by lia.
      replace (n <? 15) with true by lia. replace (n =? 15) with false by lia.
      simpl. by rewrite !andb_false_r, andb_true_r, orb_false_r.
    - simpl. by rewrite !andb_false_r, andb_true_r, !orb_false_r.
    - rewrite (Htop n) by lia. replace (n =? 15) with false by lia.
      by rewrite andb_false_r. }
  intros H. split; [by apply Hback|].
  intros idn' H' Heq. rewrite <- (Hback idn'), <- (Hback idn) by done. by rewrite Heq.
Qed.

(** ** Process image relay *)

Section RelayComposition.

Local Open Scope nat_scope.

Variable LCEC_FSOE_SIZE : nat → nat → nat.

Implicit Types (pd : list byte) (dst src n k : nat).

Lemma memcpy_lookup pd dst src n pd' :
  memcpy pd dst src n = Some pd' →
  copy_ok (length pd) dst src n ∧ length pd' = length pd ∧
  ∀ k, pd' !! k =
       if decide (dst ≤ k < dst + n) then pd !! (src + (k - dst)) else pd !! k.
Proof.
  unfold memcpy. destruct (decide _) as [Hok|]; [|done]. intros [= <-].
  split; [exact Hok|]. destruct Hok as (Hdst & Hsrc & _).
  assert (Hl1 : length (take dst pd) = dst) by (rewrite length_take; lia).
  assert (Hl2 : length (take n (drop src pd)) = n)
    by (rewrite length_take, length_drop; lia).
  split.
  - rewrite !length_app, Hl1, Hl2, length_drop. lia.
  - intros k. destruct (decide (dst ≤ k < dst + n)) as [Hin|Hout].
    + rewrite lookup_app_r by lia. rewrite lookup_app_l by lia.
      rewrite lookup_take_lt by lia. rewrite lookup_drop, Hl1. done.
    + destruct (decide (k < dst)).
      * rewrite lookup_app_l by lia. by rewrite lookup_take_lt.
      * rewrite lookup_app_r by lia. rewrite lookup_app_r by lia.
        rewrite lookup_drop, Hl1, Hl2. f_equal. lia.
Qed.

Lemma memcpy_defined pd dst src n :
  copy_ok (length pd) dst src n → is_Some (memcpy pd dst src n).
Proof. intros Hok. unfold memcpy. by rewrite decide_True. Qed.

(** The image after [copy_fsoe_data], byte by byte. *)
Lemma copy_fsoe_data_lookup (master : lcec_master) (slave : lcec_slave)
    (fsoeConf : LCEC_CONF_FSOE_T) (fso fmo slave_offset master_offset : nat) :
  let pd := process_data master in
  let n1 := LCEC_FSOE_SIZE (data_channels fsoeConf) (slave_data_len fsoeConf) in
  let n2 := LCEC_FSOE_SIZE (data_channels fsoeConf) (master_data_len fsoeConf) in
  s_fsoeConf slave = Some fsoeConf →
  s_fsoe_slave_offset slave = Some fso →
  s_fsoe_master_offset slave = Some fmo →
  copy_ok (length pd) fso slave_offset n1 →
  copy_ok (length pd) master_offset fmo n2 →
  (fso + n1 ≤ fmo ∨ fmo + n2 ≤ fso) →
  ∃ pd2,
    copy_fsoe_data LCEC_FSOE_SIZE master slave slave_offset master_offset = Some pd2 ∧
    length pd2 = length pd ∧
    ∀ k, pd2 !! k =
         if decide (master_offset ≤ k < master_offset + n2)
         then pd !! (fmo + (k - master_offset))
         else if decide (fso ≤ k < fso + n1)
              then pd !! (slave_offset + (k - fso))
              else pd !! k.
Proof.
  intros pd n1 n2 Hconf Hfso Hfmo Hok1 Hok2 Hapart.
  unfold copy_fsoe_data. rewrite Hconf, Hfso, Hfmo. fold pd n1 n2.
  destruct (memcpy_defined pd fso slave_offset n1 Hok1) as [pd1 Hpd1].
  rewrite Hpd1. cbn.
  destruct (memcpy_lookup _ _ _ _ _ Hpd1) as (_ & Hlen1 & Hlook1).
  destruct (memcpy_defined pd1 master_offset fmo n2) as [pd2 Hpd2];
    [by rewrite Hlen1|].
  rewrite Hpd2.
  destruct (memcpy_lookup _ _ _ _ _ Hpd2) as (_ & Hlen2 & Hlook2).
  exists pd2. split; [done|]. split; [congruence|].
  intros k. rewrite Hlook2.
  destruct (decide (master_offset ≤ k < master_offset + n2)) as [Hin|Hout].
  - rewrite Hlook1. rewrite decide_False; [done|]. lia.
  - apply Hlook1.
Qed.

(** X7: for a slave with a mapping and both offsets, with each copy inside
    the image and the frame written first apart from the frame read
    second, the image after [copy_fsoe_data] is, byte by byte: inside the
    frame at [master_offset], the byte the image had at the same distance
    into the master-facing frame; otherwise inside the slave-facing frame,
    the byte the image had at the same distance from [slave_offset];
    otherwise the byte it had. *)
Theorem copy_fsoe_data_pointwise (master : lcec_master) (slave : lcec_slave)
    (fsoeConf : LCEC_CONF_FSOE_T) (fso fmo slave_offset master_offset : nat) :
  let pd := process_data master in
  let n1 := LCEC_FSOE_SIZE (data_channels fsoeConf) (slave_data_len fsoeConf) in
  let n2 := LCEC_FSOE_SIZE (data_channels fsoeConf) (master_data_len fsoeConf) in
  s_fsoeConf slave = Some fsoeConf →
  s_fsoe_slave_offset slave = Some fso →
  s_fsoe_master_offset slave = Some fmo →
  copy_ok (length pd) fso slave_offset n1 →
  copy_ok (length pd) master_offset fmo n2 →
  (fso + n1 ≤ fmo ∨ fmo + n2 ≤ fso) →
  ∃ pd2,
    copy_fsoe_data LCEC_FSOE_SIZE master slave slave_offset master_offset = Some pd2 ∧
    length pd2 = length pd ∧
    ∀ k, pd2 !! k =
         if decide (master_offset ≤ k < master_offset + n2)
         then pd !! (fmo + (k - master_offset))
         else if decide (fso ≤ k < fso + n1)
              then pd !! (slave_offset + (k - fso))
              else pd !! k.
Proof.
  apply copy_fsoe_data_lookup.
Qed.

(** X8: when in addition the two frames written are apart and the frame
    at [slave_offset] is apart from the one written at [master_offset],
    running [copy_fsoe_data] once more on the image it produced changes
    nothing. *)
Theorem copy_fsoe_data_idempotent (master : lcec_master) (slave : lcec_slave)
    (fsoeConf : LCEC_CONF_FSOE_T) (fso fmo slave_offset master_offset : nat) :
  let pd := process_data master in
  let n1 := LCEC_FSOE_SIZE (data_channels fsoeConf) (slave_data_len fsoeConf) in
  let n2 := LCEC_FSOE_SIZE (data_channels fsoeConf) (master_data_len fsoeConf) in
  s_fsoeConf slave = Some fsoeConf →
  s_fsoe_slave_offset slave = Some fso →
  s_fsoe_master_offset slave = Some fmo →
  copy_ok (length pd) fso slave_offset n1 →
  copy_ok (length pd) master_offset fmo n2 →
  (fso + n1 ≤ fmo ∨ fmo + n2 ≤ fso) →
  (fso + n1 ≤ master_offset ∨ master_offset + n2 ≤ fso) →
  (slave_offset + n1 ≤ master_offset ∨ master_offset + n2 ≤ slave_offset) →
  ∃ pd2,
    copy_fsoe_data LCEC_FSOE_SIZE master slave slave_offset master_offset = Some pd2 ∧
    copy_fsoe_data LCEC_FSOE_SIZE
      {| m_name := m_name master; m_master := m_master master;
         process_data := pd2; first_slave := first_slave master |}
      slave slave_offset master_offset = Some pd2.
Proof.
  intros pd n1 n2 Hconf Hfso Hfmo Hok1 Hok2 Hsep1 Hsep2 Hsep3.
  destruct (copy_fsoe_data_lookup master slave fsoeConf fso fmo
              slave_offset master_offset Hconf Hfso Hfmo Hok1 Hok2 Hsep1)
    as (pd2 & Hrun & Hlen & Hlook).
  fold pd n1 n2 in Hrun, Hlen, Hlook.
  exists pd2. split; [done|].
  set (master2 := {| m_name := m_name master; m_master := m_master master;
                     process_data := pd2; first_slave := first_slave master |}).
  destruct (copy_fsoe_data_lookup master2 slave fsoeConf fso fmo
              slave_offset master_offset Hconf Hfso Hfmo)
    as (pd3 & Hrun3 & Hlen3 & Hlook3); simpl; fold n1 n2;
    [by rewrite Hlen | by rewrite Hlen | done |].
  simpl in Hrun3, Hlen3, Hlook3. fold n1 n2 in Hlook3.
  rewrite Hrun3. f_equal. apply list_eq. intros k.
  destruct Hok1 as (? & ? & ?). destruct Hok2 as (? & ? & ?).
  rewrite Hlook3, !Hlook.
  destruct (decide (master_offset ≤ k < master_offset + n2)).
  - rewrite decide_False by lia. rewrite decide_False by lia. done.
  - destruct (decide (fso ≤ k < fso + n1)); [|done].
    rewrite decide_False by lia. rewrite decide_False by lia. done.
Qed.

End RelayComposition.

(** ** Descriptor builder: sync managers and their PDOs *)

Section BuilderSyncRuns.

Local Open Scope nat_scope.

Implicit Types (s : lcec_syncs_t) (calls : list builder_call) (c : builder_call)
  (gs : list (ec_direction_t * ec_watchdog_mode_t * list Z)).

Lemma sync_groups_snoc_sync calls dir wd :
  sync_groups (calls ++ [AddSync dir wd]) = sync_groups calls ++ [(dir, wd, [])].
Proof.
  assert (Hcur : ∀ calls,
    pdos_while_current (calls ++ [AddSync dir wd]) = pdos_while_current calls).
  { clear calls. intros calls. induction calls as [|[]]; simpl; auto. by f_equal. }
  induction calls as [|[]]; simpl; auto. by rewrite Hcur, IHcalls.
Qed.

Lemma sync_groups_snoc_entry calls index subindex bit_length :
  sync_groups (calls ++ [AddEntry index subindex bit_length]) = sync_groups calls.
Proof.
  assert (Hcur : ∀ calls,
    pdos_while_current (calls ++ [AddEntry index subindex bit_length]) =
    pdos_while_current calls).
  { clear calls. intros calls. induction calls as [|[]]; simpl; auto. by f_equal. }
  induction calls as [|[]]; simpl; auto. by rewrite Hcur, IHcalls.
Qed.

Lemma pdos_while_current_snoc calls index :
  pdos_while_current (calls ++ [AddPdo index]) =
  match sync_groups calls with
  | [] => pdos_while_current calls ++ [index]
  | _ => pdos_while_current calls
  end.
Proof.
  induction calls as [|[] calls IH]; simpl; auto.
  rewrite IH. by destruct (sync_groups calls).
Qed.

Lemma sync_groups_snoc_pdo calls index :
  sync_groups (calls ++ [AddPdo index]) = snoc_pdo index (sync_groups calls).
Proof.
  induction calls as [|[] calls IH]; simpl; auto.
  rewrite IH, pdos_while_current_snoc.
  by destruct (sync_groups calls).
Qed.

Lemma snoc_pdo_last index gs dir wd ixs :
  snoc_pdo index (gs ++ [(dir, wd, ixs)]) = gs ++ [(dir, wd, ixs ++ [index])].
Proof.
  induction gs as [|[[d w] js] gs IH]; simpl; [done|].
  rewrite IH. by destruct gs.
Qed.

Lemma length_sync_groups calls :
  length (sync_groups calls) = count_calls is_add_sync calls.
Proof.
  unfold count_calls. induction calls as [|[]]; simpl; auto.
Qed.

(** A run read from a flat table whose used part is a concatenation. *)
Lemma run_of_flat {X : Type} (tab A es R : list X) (count : nat) :
  take count tab = (A ++ es) ++ R →
  take (length es) (drop (length A) tab) = es.
Proof.
  intros Hflat.
  assert (Hle : length A + length es ≤ count).
  { apply (f_equal length) in Hflat.
    rewrite length_take, !length_app in Hflat. lia. }
  rewrite take_drop_commute.
  replace (take (length A + length es) tab)
    with (take (length A + length es) (take count tab))
    by (rewrite take_take; f_equal; lia).
  rewrite Hflat, take_app_length' by (rewrite length_app; lia).
  by rewrite drop_app_length.
Qed.

Lemma sync_run_inv_init max_sync max_pdo max_entry :
  sync_run_inv max_sync [] (lcec_syncs_init max_sync max_pdo max_entry).
Proof.
  split; simpl; rewrite ?length_replicate; try done; try lia.
  intros k _ Hk. exists zero_sync. split; [|done].
  destruct k as [|k]; [done|]. simpl. apply lookup_replicate_2. lia.
Qed.

Lemma sync_run_inv_step max_sync calls s c s' :
  sync_run_inv max_sync calls s → builder_step s c = Some s' →
  sync_run_inv max_sync (calls ++ [c]) s'.
Proof.
  intros [Hsl Hsc Hpc Hpb Hcs Htab Hgr Hfree] Hstep.
  destruct c as [dir wd|index|index subindex bit_length]; simpl in Hstep.
  - (* a new sync manager: a new group without PDOs *)
    unfold lcec_syncs_add_sync in Hstep.
    destruct (syncs s !! sync_count s) as [d|] eqn:Hd; [|done]. cbn in Hstep.
    destruct (_ !! S (sync_count s)) as [t|] eqn:Ht in Hstep; [|done]. cbn in Hstep.
    injection Hstep as <-.
    pose proof (lookup_lt_Some _ _ _ Ht) as Hlt. rewrite length_insert in Hlt.
    rewrite list_lookup_insert_ne in Ht by lia.
    destruct (Hfree (sync_count s)) as (d0 & Hd0 & Hn0 & Hp0); [lia..|].
    assert (d0 = d) as -> by congruence.
    destruct (Hfree (S (sync_count s))) as (t0 & Ht0 & Hnt & Hpt); [lia..|].
    assert (t0 = t) as -> by congruence.
    split; simpl;
      rewrite ?sync_groups_snoc_sync, ?length_insert, ?length_app,
        ?fmap_app, ?concat_app; simpl; rewrite ?app_nil_r; try done; try lia.
    + intros k dir' wd' ixs Hk. apply lookup_app_Some in Hk as [Hk|[Hlen Hk]].
      * pose proof (lookup_lt_Some _ _ _ Hk) as Hklt.
        destruct (Hgr k dir' wd' ixs Hk) as (d1 & Hd1 & ?).
        exists d1. rewrite !list_lookup_insert_ne by lia.
        rewrite take_app_le by lia. done.
      * destruct (k - length (sync_groups calls)) as [|?] eqn:Hsub; [|done].
        injection Hk as <- <- <-.
        assert (k = sync_count s) as -> by lia.
        eexists. split.
        -- rewrite list_lookup_insert_ne by lia.
           apply list_lookup_insert_eq. lia.
        -- done.
    + intros k Hk Hle. destruct (decide (k = S (sync_count s))) as [->|Hne].
      * eexists. split; [apply list_lookup_insert_eq; rewrite length_insert; lia|].
        done.
      * rewrite !list_lookup_insert_ne by lia. apply Hfree; lia.
  - (* a new PDO: one more index in the last group *)
    unfold lcec_syncs_add_pdo_info in Hstep.
    destruct (curr_sync s) as [cs|] eqn:Hcurr; [|done]. cbn in Hstep.
    destruct (syncs s !! cs) as [d|] eqn:Hd; [|done]. cbn in Hstep.
    destruct (pdo_infos s !! pdo_info_count s) as [p|] eqn:Hp; [|done]. cbn in Hstep.
    injection Hstep as <-.
    pose proof (lookup_lt_Some _ _ _ Hp) as Hplt.
    destruct (sync_count s) as [|n] eqn:Hn; [congruence|].
    assert (cs = n) as -> by congruence.
    pose proof (sync_groups_snoc_pdo calls index) as Hgroups.
    remember (sync_groups calls) as G eqn:HG. clear HG.
    destruct G as [|g gs _] using rev_ind; [done|].
    destruct g as [[dir wd] ixs].
    rewrite snoc_pdo_last in Hgroups.
    rewrite length_app in Hsc. simpl in Hsc.
    assert (Hgs : n = length gs) by lia. subst n.
    destruct (Hgr (length gs) dir wd ixs) as (d0 & Hd0 & Hi0 & Hdir & Hwd & Hnp & Hhead).
    { by rewrite lookup_app_r, Nat.sub_diag by lia. }
    assert (d0 = d) as -> by congruence.
    rewrite take_app_length in Hhead.
    rewrite fmap_app, concat_app in Hpc, Htab. simpl in Hpc, Htab.
    rewrite app_nil_r in Hpc, Htab. rewrite length_app in Hpc.
    split; simpl;
      rewrite ?Hgroups, ?length_insert, ?length_app, ?fmap_app, ?concat_app;
      simpl; rewrite ?app_nil_r, ?length_app; simpl; try done; try lia.
    + erewrite take_S_r; [|apply list_lookup_insert_eq; lia].
      rewrite take_insert_ge by lia. rewrite fmap_app, Htab. simpl.
      by rewrite !app_assoc.
    + intros k dir' wd' ixs' Hk. apply lookup_app_Some in Hk as [Hk|[Hlen Hk]].
      * pose proof (lookup_lt_Some _ _ _ Hk) as Hklt.
        destruct (Hgr k dir' wd' ixs') as (d1 & Hd1 & Hrest).
        { by apply lookup_app_l_Some. }
        exists d1. rewrite list_lookup_insert_ne by lia.
        rewrite take_app_le in Hrest by lia. rewrite take_app_le by lia. done.
      * destruct (k - length gs) as [|?] eqn:Hsub; [|done].
        injection Hk as <- <- <-.
        assert (k = length gs) as -> by lia.
        eexists. split; [apply list_lookup_insert_eq; by eapply lookup_lt_Some|].
        simpl. rewrite take_app_length, length_app. simpl.
        repeat split; try done; try lia.
        destruct ixs as [|i1 ixs]; simpl in *.
        -- rewrite Hhead. f_equal. lia.
        -- by rewrite Hhead.
    + intros k Hk Hle. rewrite list_lookup_insert_ne by lia.
      apply Hfree; lia.
  - (* a new entry: the sync managers and the PDO indices stay *)
    unfold lcec_syncs_add_pdo_entry in Hstep.
    destruct (curr_pdo_info s) as [cp|]; [|done]. cbn in Hstep.
    destruct (pdo_infos s !! cp) as [p|] eqn:Hp; [|done]. cbn in Hstep.
    destruct (pdo_entries s !! pdo_entry_count s) as [e|]; [|done]. cbn in Hstep.
    injection Hstep as <-.
    split; simpl; rewrite ?sync_groups_snoc_entry, ?length_insert; try done.
    rewrite fmap_take, list_fmap_insert. simpl.
    rewrite list_insert_id; [by rewrite <- fmap_take|].
    by rewrite list_lookup_fmap, Hp.
Qed.

Lemma sync_run_inv_run max_sync max_pdo max_entry calls s :
  builder_run (lcec_syncs_init max_sync max_pdo max_entry) calls = Some s →
  sync_run_inv max_sync calls s.
Proof.
  revert s. induction calls as [|c calls IH] using rev_ind; intros s.
  - intros [= <-]. apply sync_run_inv_init.
  - rewrite builder_run_snoc.
    destruct (builder_run _ calls) as [s0|]; [|done]. simpl.
    apply sync_run_inv_step. by apply IH.
Qed.

Lemma sync_run_inv_pdo_run max_sync calls s k dir wd ixs d :
  sync_run_inv max_sync calls s → sync_groups calls !! k = Some (dir, wd, ixs) →
  syncs s !! k = Some d → pi_index <$> pdo_run s d = ixs.
Proof.
  intros [Hsl Hsc Hpc Hpb Hcs Htab Hgr Hfree] Hk Hd.
  destruct (Hgr k dir wd ixs Hk) as (d' & Hd' & _ & _ & _ & Hn & Hhead).
  assert (d' = d) as -> by congruence.
  unfold pdo_run. rewrite Hhead, Hn.
  destruct ixs as [|i ixs]; [done|].
  rewrite fmap_take, fmap_drop.
  apply (run_of_flat _ _ _ (concat (snd <$> drop (S k) (sync_groups calls)))
           (pdo_info_count s)).
  rewrite <- fmap_take, Htab. rewrite <- (take_drop_middle _ _ _ Hk) at 1.
  rewrite fmap_app, concat_app. simpl. by rewrite <- app_assoc.
Qed.

End BuilderSyncRuns.

Section BuilderContract.

Local Open Scope nat_scope.

Variables max_sync max_pdo max_entry : nat.

Implicit Types (s : lcec_syncs_t) (calls : list builder_call) (c : builder_call).

Lemma nested_snoc_intro (hs hp : bool) calls c :
  nested hs hp calls = true →
  match c with
  | AddSync _ _ => True
  | AddPdo _ => hs = true ∨ 0 < count_calls is_add_sync calls
  | AddEntry _ _ _ => hp = true ∨ 0 < count_calls is_add_pdo calls
  end →
  nested hs hp (calls ++ [c]) = true.
Proof.
  unfold count_calls.
  revert hs hp. induction calls as [|c' calls IH]; intros hs hp; simpl.
  - intros _. destruct c; simpl; rewrite ?andb_true_r; [done|..];
      (intros [?|?]; [done|lia]).
  - destruct c'; simpl; rewrite ?andb_true_iff.
    + intros H Hc. apply IH; [done|]. destruct c; auto.
    + intros [-> H] Hc. split; [done|]. apply IH; [done|]. destruct c; auto.
    + intros [-> H] Hc. split; [done|]. apply IH; [done|]. destruct c; auto.
Qed.

(** A sequence that runs respects the contract and the capacities. *)
Lemma builder_run_defined_nested calls s :
  builder_run (lcec_syncs_init max_sync max_pdo max_entry) calls = Some s →
  nested false false calls = true ∧
  count_calls is_add_sync calls ≤ max_sync ∧
  count_calls is_add_pdo calls ≤ max_pdo ∧
  count_calls is_add_entry calls ≤ max_entry.
Proof.
  revert s. induction calls as [|c calls IH] using rev_ind; intros s.
  - intros _. unfold count_calls. simpl. repeat split; lia.
  - rewrite builder_run_snoc.
    destruct (builder_run _ calls) as [s0|] eqn:Hrun; [|done]. simpl. intros Hstep.
    destruct (IH s0 eq_refl) as (Hnest & Hs & Hp & He).
    destruct (builder_run_inv max_sync max_pdo max_entry calls Hnest Hs Hp He)
      as (s1 & Hrun1 & Hinv).
    assert (s1 = s0) as -> by congruence.
    destruct Hinv as [Hsl Hpl Hel Hsc Hpc Hec Hcs Hcp Htab Hgr Hfree].
    rewrite !count_calls_snoc.
    destruct c as [dir wd|index|index subindex bit_length]; simpl in *.
    + unfold lcec_syncs_add_sync in Hstep.
      destruct (syncs s0 !! sync_count s0) as [d|]; [|done]. cbn in Hstep.
      destruct (_ !! S (sync_count s0)) as [t|] eqn:Ht in Hstep; [|done].
      apply lookup_lt_Some in Ht. rewrite length_insert in Ht.
      split; [by apply nested_snoc_intro|]. lia.
    + unfold lcec_syncs_add_pdo_info in Hstep.
      destruct (curr_sync s0) as [cs|] eqn:Hcurr; [|done]. cbn in Hstep.
      destruct (syncs s0 !! cs) as [d|]; [|done]. cbn in Hstep.
      destruct (pdo_infos s0 !! pdo_info_count s0) as [p|] eqn:Hpi; [|done].
      apply lookup_lt_Some in Hpi. rewrite length_pdo_groups in Hpc.
      destruct (sync_count s0) as [|n] eqn:Hn; [congruence|].
      split; [apply nested_snoc_intro; [done|right; lia]|]. lia.
    + unfold lcec_syncs_add_pdo_entry in Hstep.
      destruct (curr_pdo_info s0) as [cp|] eqn:Hcurr; [|done]. cbn in Hstep.
      destruct (pdo_infos s0 !! cp) as [p|]; [|done]. cbn in Hstep.
      destruct (pdo_entries s0 !! pdo_entry_count s0) as [e|] eqn:Hpe; [|done].
      apply lookup_lt_Some in Hpe.
      rewrite (pdo_groups_all_entries false), length_all_entries in Hec by done.
      rewrite length_pdo_groups in Hpc.
      destruct (pdo_info_count s0) as [|n] eqn:Hn; [congruence|].
      split; [apply nested_snoc_intro; [done|right; lia]|]. lia.
Qed.

End BuilderContract.

(** X9: a sequence of builder calls run on a reset descriptor set stays
    within defined behaviour exactly when it respects the nesting contract
    (a PDO after some sync manager, an entry after some PDO) and adds no
    more sync managers, PDOs and entries than the tables hold. *)
Theorem builder_run_defined_iff (max_sync max_pdo max_entry : nat)
    (calls : list builder_call) :
  is_Some (builder_run (lcec_syncs_init max_sync max_pdo max_entry) calls) ↔
  nested false false calls = true ∧
  (count_calls is_add_sync calls ≤ max_sync)%nat ∧
  (count_calls is_add_pdo calls ≤ max_pdo)%nat ∧
  (count_calls is_add_entry calls ≤ max_entry)%nat.
Proof.
  split.
  - intros [s Hrun]. by eapply builder_run_defined_nested.
  - intros (Hnest & Hs & Hp & He).
    destruct (builder_run_inv max_sync max_pdo max_entry calls Hnest Hs Hp He)
      as (s & Hrun & _).
    by exists s.
Qed.

(** X10: for a sequence that respects the nesting contract and the
    capacities, the sync manager count of the result is the number of
    [AddSync] calls, the used part of the PDO table holds the PDO indices
    in the order they were added, and the [k]-th sync manager carries its
    slot number as index (as a [uint8_t]), the direction and the watchdog
    mode of the [k]-th [AddSync] call, and a run (head pointer and
    [n_pdos]) that is exactly the PDOs added while it was current, in
    order. *)
Theorem builder_sync_runs (max_sync max_pdo max_entry : nat) (calls : list builder_call) :
  nested false false calls = true →
  (count_calls is_add_sync calls ≤ max_sync)%nat →
  (count_calls is_add_pdo calls ≤ max_pdo)%nat →
  (count_calls is_add_entry calls ≤ max_entry)%nat →
  ∃ s,
    builder_run (lcec_syncs_init max_sync max_pdo max_entry) calls = Some s ∧
    sync_count s = count_calls is_add_sync calls ∧
    length (sync_groups calls) = count_calls is_add_sync calls ∧
    pi_index <$> take (pdo_info_count s) (pdo_infos s) =
      concat (snd <$> sync_groups calls) ∧
    ∀ k dir wd ixs,
      sync_groups calls !! k = Some (dir, wd, ixs) →
      ∃ d, syncs s !! k = Some d ∧ si_index d = Z.of_nat k mod 256 ∧
           si_dir d = dir ∧ si_watchdog_mode d = wd ∧
           n_pdos d = length ixs ∧ pi_index <$> pdo_run s d = ixs.
Proof.
  intros Hnest Hs Hp He.
  destruct (builder_run_inv max_sync max_pdo max_entry calls Hnest Hs Hp He)
    as (s & Hrun & _).
  pose proof (sync_run_inv_run _ _ _ _ _ Hrun) as Hinv.
  exists s. split; [done|]. split; [|split; [|split]].
  - rewrite (sri_sync_count _ _ _ Hinv). apply length_sync_groups.
  - apply length_sync_groups.
  - apply (sri_table _ _ _ Hinv).
  - intros k dir wd ixs Hk.
    destruct (sri_groups _ _ _ Hinv k dir wd ixs Hk)
      as (d & Hd & Hi & Hdir & Hwd & Hn & _).
    exists d. repeat split; try done.
    by eapply sync_run_inv_pdo_run.
Qed.

(** ** HAL parameters *)

Section HalParamProps.

Context {H : Type} (h : hal_handler H).
Variable va_list : Type.
Variable rtapi_vsnprintf : Z → string → va_list → Z * string.
Variable HAL_NAME_LEN : Z.
Variable lcec_comp_id : Z.

Local Abbreviation newfv := (lcec_param_newfv va_list rtapi_vsnprintf HAL_NAME_LEN lcec_comp_id).
Local Abbreviation newfv_list :=
  (lcec_param_newfv_list va_list rtapi_vsnprintf HAL_NAME_LEN lcec_comp_id).
Local Abbreviation fits := (name_fits va_list rtapi_vsnprintf HAL_NAME_LEN).
Local Abbreviation export := (export_of va_list rtapi_vsnprintf HAL_NAME_LEN lcec_comp_id).

Lemma hal_run_bind {A B : Type} (p : hal_prog A) (f : A → hal_prog B) (st : H) :
  hal_run h (p ≫= f) st =
  let o := hal_run h p st in
  let o' := hal_run h (f (hal_ret o)) (hal_state o) in
  {| hal_ret := hal_ret o'; hal_state := hal_state o';
     hal_trace := hal_trace o ++ hal_trace o' |}.
Proof.
  revert st. induction p as [r|name type dir addr comp k IH|type addr k IH|m k IH];
    intros st.
  - simpl. by destruct (hal_run h (f r) st).
  - change (hal_run h (HParamNew name type dir addr comp k ≫= f) st) with
      (let '(err, st') := h name type dir addr comp st in
       let o := hal_run h (k err ≫= f) st' in
       {| hal_ret := hal_ret o; hal_state := hal_state o;
          hal_trace := ParamNew name type dir addr comp err :: hal_trace o |}).
    simpl. destruct (h name type dir addr comp st) as [err st']. by rewrite IH.
  - change (hal_run h (HZero type addr k ≫= f) st) with
      (let o := hal_run h (k ≫= f) st in
       {| hal_ret := hal_ret o; hal_state := hal_state o;
          hal_trace := Zeroed type addr :: hal_trace o |}).
    simpl. by rewrite IH.
  - change (hal_run h (HPrint m k ≫= f) st) with
      (let o := hal_run h (k ≫= f) st in
       {| hal_ret := hal_ret o; hal_state := hal_state o;
          hal_trace := HalPrinted m :: hal_trace o |}).
    simpl. by rewrite IH.
Qed.

(** The three ways [lcec_param_newfv] can go. *)
Lemma run_lcec_param_newfv type dir data_addr fmt ap (st : H) :
  let fmtd := rtapi_vsnprintf (HAL_NAME_LEN + 1) fmt ap in
  let ans := h fmtd.2 type dir data_addr lcec_comp_id st in
  let o := hal_run h (newfv type dir data_addr fmt ap) st in
  (hal_ret o, hal_state o, param_news (hal_trace o), zeroed (hal_trace o)) =
  if decide (fmtd.1 = -1 ∨ fmtd.1 > HAL_NAME_LEN) then (- ENOMEM, st, [], [])
  else if decide (ans.1 ≠ 0)
       then (ans.1, ans.2, [(fmtd.2, type, dir, data_addr, lcec_comp_id, ans.1)], [])
       else (0, ans.2, [(fmtd.2, type, dir, data_addr, lcec_comp_id, 0)],
             if zero_typed type then [(type, data_addr)] else []).
Proof.
  cbv zeta. unfold lcec_param_newfv.
  destruct (rtapi_vsnprintf (HAL_NAME_LEN + 1) fmt ap) as [sz name]. cbn [fst snd].
  destruct (decide (sz = -1 ∨ sz > HAL_NAME_LEN)); [done|].
  cbn. destruct (h name type dir data_addr lcec_comp_id st) as [err st']. cbn.
  destruct (decide (err ≠ 0)) as [Hne|Heq%dec_stable]; [done|].
  rewrite Heq. by destruct type.
Qed.

(** One turn of the loop of [lcec_param_newfv_list]. *)
Lemma run_newfv_list_cons base p l ap (st : H) :
  pd_type p ≠ HAL_TYPE_UNSPECIFIED →
  let o1 := hal_run h (newfv (pd_type p) (pd_dir p) (base + pd_offset p) (pd_fmt p) ap) st in
  hal_run h (newfv_list base (p :: l) ap) st =
  if decide (hal_ret o1 ≠ 0)
  then {| hal_ret := Some (hal_ret o1); hal_state := hal_state o1;
          hal_trace := hal_trace o1 |}
  else let o := hal_run h (newfv_list base l ap) (hal_state o1) in
       {| hal_ret := hal_ret o; hal_state := hal_state o;
          hal_trace := hal_trace o1 ++ hal_trace o |}.
Proof.
  intros Htype. cbv zeta.
  change (newfv_list base (p :: l) ap) with
    (if decide (pd_type p = HAL_TYPE_UNSPECIFIED) then mret (Some 0)
     else newfv (pd_type p) (pd_dir p) (base + pd_offset p) (pd_fmt p) ap ≫=
          fun err => if decide (err ≠ 0) then mret (Some err)
                     else newfv_list base l ap).
  rewrite decide_False by done. rewrite hal_run_bind. cbv zeta.
  destruct (decide (hal_ret (hal_run h (newfv _ _ _ _ ap) st) ≠ 0)); [|done].
  cbn. by rewrite app_nil_r.
Qed.

(** The loop over descriptors [ds], none of them the sentinel, followed by
    whatever makes the loop end with [end_result] without an effect: either
    every descriptor is exported and its parameter initialised, or the loop
    stops at the first descriptor [p] that fails, with its error. *)
Lemma run_newfv_list base ap (tail : list lcec_pindesc_t) (end_result : option Z) :
  (∀ st, hal_run h (newfv_list base tail ap) st =
         {| hal_ret := end_result; hal_state := st; hal_trace := [] |}) →
  ∀ ds (st : H),
  Forall (fun p => pd_type p ≠ HAL_TYPE_UNSPECIFIED) ds →
  let o := hal_run h (newfv_list base (ds ++ tail) ap) st in
  (hal_ret o = end_result ∧
   param_news (hal_trace o) = (fun p => export base ap p 0) <$> ds ∧
   zeroed (hal_trace o) =
     zero_of base <$> List.filter (fun p => zero_typed (pd_type p)) ds) ∨
  (∃ r pre p rest,
     r ≠ 0 ∧ hal_ret o = Some r ∧ ds = pre ++ p :: rest ∧
     zeroed (hal_trace o) =
       zero_of base <$> List.filter (fun p => zero_typed (pd_type p)) pre ∧
     ((¬ fits p ap ∧ r = - ENOMEM ∧
       param_news (hal_trace o) = (fun p => export base ap p 0) <$> pre) ∨
      (fits p ap ∧
       param_news (hal_trace o) =
         ((fun p => export base ap p 0) <$> pre) ++ [export base ap p r]))).
Proof.
  intros Hend ds. induction ds as [|p ds IH]; intros st Hds; cbv zeta.
  - left. simpl. by rewrite Hend.
  - apply Forall_cons in Hds as [Hp Hds].
    change ((p :: ds) ++ tail) with (p :: (ds ++ tail)).
    rewrite run_newfv_list_cons by done. cbv zeta.
    pose proof (run_lcec_param_newfv (pd_type p) (pd_dir p) (base + pd_offset p)
                  (pd_fmt p) ap st) as Hone.
    cbv zeta in Hone.
    set (o1 := hal_run h (newfv (pd_type p) (pd_dir p) (base + pd_offset p)
                            (pd_fmt p) ap) st) in *.
    set (fmtd := rtapi_vsnprintf (HAL_NAME_LEN + 1) (pd_fmt p) ap) in *.
    set (ans := h fmtd.2 (pd_type p) (pd_dir p) (base + pd_offset p) lcec_comp_id st)
      in *.
    destruct (decide (fmtd.1 = -1 ∨ fmtd.1 > HAL_NAME_LEN)) as [Hlong|Hfits].
    { (* the name does not fit *)
      injection Hone as Hret Hst Hnews Hzero.
      assert (Hne : hal_ret o1 ≠ 0) by (unfold ENOMEM in Hret; lia).
      destruct (decide (hal_ret o1 ≠ 0)) as [_|?]; [|done].
      right. exists (- ENOMEM), [], p, ds. cbn [hal_ret hal_trace].
      repeat split; [unfold ENOMEM; lia | by rewrite Hret | done |].
      left. split; [|done]. intros Hf. by apply Hf. }
    destruct (decide (ans.1 ≠ 0)) as [Herr|Hok%dec_stable].
    { (* the export is refused *)
      injection Hone as Hret Hst Hnews Hzero.
      assert (Hne : hal_ret o1 ≠ 0) by lia.
      destruct (decide (hal_ret o1 ≠ 0)) as [_|?]; [|done].
      right. exists ans.1, [], p, ds. cbn [hal_ret hal_trace].
      repeat split; [done | by rewrite Hret | done |].
      right. split; [exact Hfits|]. rewrite Hnews. done. }
    (* the export succeeds: the loop goes on *)
    injection Hone as Hret Hst Hnews Hzero.
    destruct (decide (hal_ret o1 ≠ 0)) as [?|_]; [lia|].
    cbn [hal_ret hal_trace].
    unfold param_news, zeroed in *. rewrite !omap_app, Hnews, Hzero.
    destruct (IH (hal_state o1) Hds) as [(Hr & Hn & Hz)|
      (r & pre & q & rest & Hr0 & Hr & -> & Hz & Hq)].
    + left. split; [done|]. rewrite Hn, Hz. split; [done|].
      simpl. by destruct (zero_typed (pd_type p)).
    + right. exists r, (p :: pre), q, rest.
      split; [done|]. split; [done|]. split; [done|]. split.
      * rewrite Hz. simpl. by destruct (zero_typed (pd_type p)).
      * destruct Hq as [(? & ? & Hn)|(? & Hn)]; [left|right];
          rewrite Hn; done.
Qed.

(** X11: [lcec_param_newf] never exports a parameter whose formatted name
    does not fit a HAL name: it returns [-ENOMEM] and leaves the HAL as it
    was.  When the name fits it makes one export; a refused export is
    returned as it is and the parameter is not touched; after an accepted
    export the parameter is set to zero if its type is bit, float, s32 or
    u32 and left alone otherwise, and the result is [0].  The result is
    [0] exactly when the name fits and the export is accepted. *)
Theorem lcec_param_newf_guards (type : hal_type_t) (dir data_addr : Z)
    (fmt : string) (args : va_list) (st : H) :
  let fmtd := rtapi_vsnprintf (HAL_NAME_LEN + 1) fmt args in
  let ans := h fmtd.2 type dir data_addr lcec_comp_id st in
  let o := hal_run h (lcec_param_newf va_list rtapi_vsnprintf HAL_NAME_LEN lcec_comp_id
                        type dir data_addr fmt args) st in
  (fmtd.1 = -1 ∨ fmtd.1 > HAL_NAME_LEN →
     hal_ret o = - ENOMEM ∧ hal_state o = st ∧
     param_news (hal_trace o) = [] ∧ zeroed (hal_trace o) = []) ∧
  (¬ (fmtd.1 = -1 ∨ fmtd.1 > HAL_NAME_LEN) → ans.1 ≠ 0 →
     hal_ret o = ans.1 ∧ hal_state o = ans.2 ∧
     param_news (hal_trace o) = [(fmtd.2, type, dir, data_addr, lcec_comp_id, ans.1)] ∧
     zeroed (hal_trace o) = []) ∧
  (¬ (fmtd.1 = -1 ∨ fmtd.1 > HAL_NAME_LEN) → ans.1 = 0 →
     hal_ret o = 0 ∧ hal_state o = ans.2 ∧
     param_news (hal_trace o) = [(fmtd.2, type, dir, data_addr, lcec_comp_id, 0)] ∧
     zeroed (hal_trace o) = if zero_typed type then [(type, data_addr)] else []) ∧
  (hal_ret o = 0 ↔ ¬ (fmtd.1 = -1 ∨ fmtd.1 > HAL_NAME_LEN) ∧ ans.1 = 0).
Proof.
  intros fmtd ans o.
  pose proof (run_lcec_param_newfv type dir data_addr fmt args st) as Hone.
  cbv zeta in Hone. fold fmtd in Hone. fold ans in Hone.
  change (hal_run h (newfv type dir data_addr fmt args) st) with o in Hone.
  clearbody o ans fmtd.
  destruct (decide (fmtd.1 = -1 ∨ fmtd.1 > HAL_NAME_LEN)) as [Hlong|Hfits].
  - injection Hone as Hret Hst Hnews Hzero. unfold ENOMEM in *.
    repeat split; try done; try lia; tauto.
  - destruct (decide (ans.1 ≠ 0)) as [Herr|Hok%dec_stable];
      injection Hone as Hret Hst Hnews Hzero;
      repeat split; try done; try lia; tauto.
Qed.

(** X12: on an array of descriptors that ends with one of type
    [HAL_TYPE_UNSPECIFIED], [lcec_param_newf_list] stays inside the array
    and exports the descriptors in order, each at [base + offset] under
    its own formatted name, until one fails.  Either all of them are
    exported and initialised and the result is [0]; or the result is the
    error of the first descriptor that fails ([-ENOMEM] if its name does
    not fit, what [hal_param_new] returned otherwise), the descriptors
    before it are exported and initialised, and none after it is touched.
    What follows the terminating descriptor is never looked at. *)
Theorem lcec_param_newf_list_stops (base : Z) (ds post : list lcec_pindesc_t)
    (e : lcec_pindesc_t) (args : va_list) (st : H) :
  Forall (fun p => pd_type p ≠ HAL_TYPE_UNSPECIFIED) ds →
  pd_type e = HAL_TYPE_UNSPECIFIED →
  let o := hal_run h (lcec_param_newf_list va_list rtapi_vsnprintf HAL_NAME_LEN
                        lcec_comp_id base (ds ++ e :: post) args) st in
  (hal_ret o = Some 0 ∧
   param_news (hal_trace o) = (fun p => export base args p 0) <$> ds ∧
   zeroed (hal_trace o) =
     zero_of base <$> List.filter (fun p => zero_typed (pd_type p)) ds) ∨
  (∃ r pre p rest,
     r ≠ 0 ∧ hal_ret o = Some r ∧ ds = pre ++ p :: rest ∧
     zeroed (hal_trace o) =
       zero_of base <$> List.filter (fun p => zero_typed (pd_type p)) pre ∧
     ((¬ fits p args ∧ r = - ENOMEM ∧
       param_news (hal_trace o) = (fun p => export base args p 0) <$> pre) ∨
      (fits p args ∧
       param_news (hal_trace o) =
         ((fun p => export base args p 0) <$> pre) ++ [export base args p r]))).
Proof.
  intros Hds He. unfold lcec_param_newf_list.
  apply (run_newfv_list base args (e :: post) (Some 0)); [|done].
  intros st'. simpl. by rewrite decide_True.
Qed.


End HalParamProps.

(** * Further code on concrete inputs *)

Example param_list_example :
  let o := hal_run example_hal
             (lcec_param_newf_list string example_vsnprintf 47 7 1000
                example_pindescs "lcec.0.din") [] in
  hal_ret o = Some (-22) ∧
  hal_state o = ["lcec.0.din.scale"; "lcec.0.din.invert"] ∧
  zeroed (hal_trace o) = [(HAL_BIT, 1000); (HAL_FLOAT, 1008)] ∧
  length (param_news (hal_trace o)) = 3%nat.
Proof. vm_compute. done. Qed.

Example param_name_too_long :
  let o := hal_run example_hal
             (lcec_param_newf string example_vsnprintf 10 7 HAL_S32 64 1000
                "position" "lcec.0.enc") [] in
  hal_ret o = -12 ∧ hal_state o = [] ∧ param_news (hal_trace o) = [].
Proof. vm_compute. done. Qed.

Example sync_groups_example :
  sync_groups (example_calls ++ [AddSync EC_DIR_OUTPUT EC_WD_ENABLE; AddEntry 0x6000 3 8]) =
    [(EC_DIR_INPUT, EC_WD_DEFAULT, [0x1a00]); (EC_DIR_OUTPUT, EC_WD_ENABLE, [])] ∧
  (snd <$> pdo_groups
     (example_calls ++ [AddSync EC_DIR_OUTPUT EC_WD_ENABLE; AddEntry 0x6000 3 8])) =
    [[ {| pe_index := 0x6000; pe_subindex := 1; pe_bit_length := 8 |};
       {| pe_index := 0x6000; pe_subindex := 2; pe_bit_length := 8 |};
       {| pe_index := 0x6000; pe_subindex := 3; pe_bit_length := 8 |} ]].
Proof. done. Qed.

Example idn_fields_example :
  idn_fields 0x8021 = (true, 0, 33) ∧ idn_fields 0x1064 = (false, 1, 100).
Proof. done. Qed.

(** * Instances of the further theorems *)

Lemma lcec_read_back_other_size_witness :
  let master := example_master in
  let slave := example_slave 1 "in" in
  let data := EC_WRITE_U16 0x1234 in
  let o := run storing_transport
             (lcec_write_sdo master slave 0x8000 1 data (N.of_nat (length data))) ∅ in
  4%N ≠ N.of_nat (length data) ∧
  ret o = 0 ∧
  (ret (run storing_transport
          (lcec_read_sdo master slave 0x8000 1 [] 4) (transport o))).1 = -1.
Proof.
  intros master slave data o.
  assert (Hsize : 4%N ≠ N.of_nat (length data)) by (simpl; lia).
  split; [exact Hsize|].
  exact (lcec_read_back_other_size master slave 0x8000 1 data [] 4 ∅ Hsize).
Defined.

Lemma idn_fields_lossless_witness :
  0 ≤ 0x8021 < 2 ^ 16 ∧
  idn_of_fields (idn_fields 0x8021) = 0x8021 ∧
  (∀ idn', 0 ≤ idn' < 2 ^ 16 → idn_fields idn' = idn_fields 0x8021 → idn' = 0x8021).
Proof.
  assert (Hrange : 0 ≤ 0x8021 < 2 ^ 16) by lia.
  split; [exact Hrange|].
  exact (idn_fields_lossless 0x8021 Hrange).
Defined.

Lemma copy_fsoe_data_pointwise_witness :
  let pd := process_data example_master in
  let fsoeConf := {| slave_data_len := 1; master_data_len := 1; data_channels := 1 |} in
  s_fsoeConf example_fsoe_slave = Some fsoeConf ∧
  s_fsoe_slave_offset example_fsoe_slave = Some 0%nat ∧
  s_fsoe_master_offset example_fsoe_slave = Some 6%nat ∧
  copy_ok (length pd) 0 12 6 ∧ copy_ok (length pd) 18 6 6 ∧
  (0 + 6 ≤ 6 ∨ 6 + 6 ≤ 0)%nat ∧
  ∃ pd2,
    copy_fsoe_data example_fsoe_size example_master example_fsoe_slave 12 18 = Some pd2 ∧
    length pd2 = length pd ∧
    ∀ k, pd2 !! k =
         if decide (18 ≤ k < 18 + 6)%nat then pd !! (6 + (k - 18))%nat
         else if decide (0 ≤ k < 0 + 6)%nat then pd !! (12 + (k - 0))%nat
              else pd !! k.
Proof.
  intros pd fsoeConf.
  assert (H1 : copy_ok (length pd) 0 12 6) by (vm_compute; lia).
  assert (H2 : copy_ok (length pd) 18 6 6) by (vm_compute; lia).
  assert (H3 : (0 + 6 ≤ 6 ∨ 6 + 6 ≤ 0)%nat) by lia.
  split; [reflexivity|]. split; [reflexivity|]. split; [reflexivity|].
  split; [exact H1|]. split; [exact H2|]. split; [exact H3|].
  exact (copy_fsoe_data_pointwise example_fsoe_size example_master example_fsoe_slave
           fsoeConf 0 6 12 18 eq_refl eq_refl eq_refl H1 H2 H3).
Defined.

Lemma copy_fsoe_data_idempotent_witness :
  let pd := process_data example_master in
  let fsoeConf := {| slave_data_len := 1; master_data_len := 1; data_channels := 1 |} in
  copy_ok (length pd) 0 12 6 ∧ copy_ok (length pd) 18 6 6 ∧
  (0 + 6 ≤ 6 ∨ 6 + 6 ≤ 0)%nat ∧ (0 + 6 ≤ 18 ∨ 18 + 6 ≤ 0)%nat ∧
  (12 + 6 ≤ 18 ∨ 18 + 6 ≤ 12)%nat ∧
  ∃ pd2,
    copy_fsoe_data example_fsoe_size example_master example_fsoe_slave 12 18 = Some pd2 ∧
    copy_fsoe_data example_fsoe_size
      {| m_name := m_name example_master; m_master := m_master example_master;
         process_data := pd2; first_slave := first_slave example_master |}
      example_fsoe_slave 12 18 = Some pd2.
Proof.
  intros pd fsoeConf.
  assert (H1 : copy_ok (length pd) 0 12 6) by (vm_compute; lia).
  assert (H2 : copy_ok (length pd) 18 6 6) by (vm_compute; lia).
  assert (H3 : (0 + 6 ≤ 6 ∨ 6 + 6 ≤ 0)%nat) by lia.
  assert (H4 : (0 + 6 ≤ 18 ∨ 18 + 6 ≤ 0)%nat) by lia.
  assert (H5 : (12 + 6 ≤ 18 ∨ 18 + 6 ≤ 12)%nat) by lia.
  split; [exact H1|]. split; [exact H2|]. split; [exact H3|].
  split; [exact H4|]. split; [exact H5|].
  exact (copy_fsoe_data_idempotent example_fsoe_size example_master example_fsoe_slave
           fsoeConf 0 6 12 18 eq_refl eq_refl eq_refl H1 H2 H3 H4 H5).
Defined.

Lemma builder_sync_runs_witness :
  nested false false example_calls = true ∧
  (count_calls is_add_sync example_calls ≤ 4)%nat ∧
  (count_calls is_add_pdo example_calls ≤ 8)%nat ∧
  (count_calls is_add_entry example_calls ≤ 32)%nat ∧
  ∃ s,
    builder_run (lcec_syncs_init 4 8 32) example_calls = Some s ∧
    sync_count s = count_calls is_add_sync example_calls ∧
    length (sync_groups example_calls) = count_calls is_add_sync example_calls ∧
    pi_index <$> take (pdo_info_count s) (pdo_infos s) =
      concat (snd <$> sync_groups example_calls) ∧
    ∀ k dir wd ixs,
      sync_groups example_calls !! k = Some (dir, wd, ixs) →
      ∃ d, syncs s !! k = Some d ∧ si_index d = Z.of_nat k mod 256 ∧
           si_dir d = dir ∧ si_watchdog_mode d = wd ∧
           n_pdos d = length ixs ∧ pi_index <$> pdo_run s d = ixs.
Proof.
  assert (Hnest : nested false false example_calls = true) by reflexivity.
  assert (Hs : (count_calls is_add_sync example_calls ≤ 4)%nat) by (vm_compute; lia).
  assert (Hp : (count_calls is_add_pdo example_calls ≤ 8)%nat) by (vm_compute; lia).
  assert (He : (count_calls is_add_entry example_calls ≤ 32)%nat) by (vm_compute; lia).
  split; [exact Hnest|]. split; [exact Hs|]. split; [exact Hp|]. split; [exact He|].
  exact (builder_sync_runs 4 8 32 example_calls Hnest Hs Hp He).
Defined.

Lemma lcec_param_newf_list_stops_witness :
  let ds := take 4 example_pindescs in
  let e := {| pd_type := HAL_TYPE_UNSPECIFIED; pd_dir := 0; pd_offset := 0; pd_fmt := "" |} in
  let post := drop 5 example_pindescs in
  let o := hal_run example_hal
             (lcec_param_newf_list string example_vsnprintf 47 7 1000
                (ds ++ e :: post) "lcec.0.din") [] in
  Forall (fun p => pd_type p ≠ HAL_TYPE_UNSPECIFIED) ds ∧
  pd_type e = HAL_TYPE_UNSPECIFIED ∧
  ((hal_ret o = Some 0 ∧
    param_news (hal_trace o) =
      (fun p => export_of string example_vsnprintf 47 7 1000 "lcec.0.din" p 0) <$> ds ∧
    zeroed (hal_trace o) =
      zero_of 1000 <$> List.filter (fun p => zero_typed (pd_type p)) ds) ∨
   (∃ r pre p rest,
      r ≠ 0 ∧ hal_ret o = Some r ∧ ds = pre ++ p :: rest ∧
      zeroed (hal_trace o) =
        zero_of 1000 <$> List.filter (fun p => zero_typed (pd_type p)) pre ∧
      ((¬ name_fits string example_vsnprintf 47 p "lcec.0.din" ∧ r = - ENOMEM ∧
        param_news (hal_trace o) =
          (fun p => export_of string example_vsnprintf 47 7 1000 "lcec.0.din" p 0) <$> pre) ∨
       (name_fits string example_vsnprintf 47 p "lcec.0.din" ∧
        param_news (hal_trace o) =
          ((fun p => export_of string example_vsnprintf 47 7 1000 "lcec.0.din" p 0) <$> pre)
          ++ [export_of string example_vsnprintf 47 7 1000 "lcec.0.din" p r])))).
Proof.
  intros ds e post o.
  assert (Hds : Forall (fun p => pd_type p ≠ HAL_TYPE_UNSPECIFIED) ds)
    by (repeat constructor; simpl; discriminate).
  assert (He : pd_type e = HAL_TYPE_UNSPECIFIED) by reflexivity.
  split; [exact Hds|]. split; [exact He|].
  exact (lcec_param_newf_list_stops example_hal string example_vsnprintf 47 7 1000
           ds post e "lcec.0.din" [] Hds He).
Defined.

